(** * Connect Four: board model, heuristic evaluator and alpha-beta search

    A shallow embedding of [game.py] and [minimax.py].  The board is the
    6x7 integer grid of the source (row 0 is the top), Python integers are
    [Z], the exceptions of the source are an error monad, the [stats]
    dictionary is a counter threaded through the search, and the recursion
    of [minimax] is driven by a fuel argument that the number of empty
    cells bounds. *)

From Stdlib Require Import ZArith List Lia Bool Permutation Sorted.
From stdpp Require Import base numbers list strings.
Import ListNotations.

Local Open Scope Z_scope.

(** ** game.py: constants *)

Definition ROWS : Z := 6.
Definition COLS : Z := 7.
Definition EMPTY : Z := 0.
Definition PLAYER_1 : Z := 1.
Definition PLAYER_2 : Z := 2.
Definition WIN_LENGTH : Z := 4.

(** ** Exceptions and results *)

Inductive exn : Type := ValueError | IndexError.

(** A computation returns, raises, or (in the fuel-driven model of the
    recursion only) runs out of fuel. *)
Inductive result (A : Type) : Type :=
| Ret (a : A)
| Raise (e : exn)
| OutOfFuel.
Arguments Ret {A} a.
Arguments Raise {A} e.
Arguments OutOfFuel {A}.

#[global] Instance result_bind : MBind result := fun A B k m =>
  match m with
  | Ret a => k a
  | Raise e => Raise e
  | OutOfFuel => OutOfFuel
  end.

(** ** Boards *)

(** A numpy array of shape (ROWS, COLS): a list of rows. *)
Abbreviation board := (list (list Z)).

(** [range(lo, hi)] *)
Definition range (lo hi : Z) : list Z :=
  map (fun i : nat => lo + Z.of_nat i) (seq 0 (Z.to_nat (hi - lo))).

(** [range(hi, lo, -1)]: hi, hi-1, ..., lo+1 *)
Definition range_down (hi lo : Z) : list Z :=
  map (fun i : nat => hi - Z.of_nat i) (seq 0 (Z.to_nat (hi - lo))).

(** [board[row][col]].  Every index the source computes lies inside a
    board of shape (ROWS, COLS), see [wf_board]; outside, where numpy
    raises, the model reads [EMPTY]. *)
Definition cell (b : board) (row col : Z) : Z :=
  match b !! Z.to_nat row with
  | Some r => default EMPTY (r !! Z.to_nat col)
  | None => EMPTY
  end.

(** [board[row][col] = v] *)
Definition set_cell (b : board) (row col v : Z) : board :=
  match b !! Z.to_nat row with
  | Some r => <[Z.to_nat row := <[Z.to_nat col := v]> r]> b
  | None => b
  end.

(** The shape (ROWS, COLS). *)
Definition wf_board (b : board) : Prop :=
  length b = Z.to_nat ROWS /\ Forall (fun r => length r = Z.to_nat COLS) b.

(** [np.zeros((ROWS, COLS), dtype=int)] *)
Definition create_board : board :=
  replicate (Z.to_nat ROWS) (replicate (Z.to_nat COLS) 0).

(** [[col for col in range(COLS) if board[0][col] == EMPTY]] *)
Definition get_legal_moves (b : board) : list Z :=
  List.filter (fun col => cell b 0 col =? EMPTY) (range 0 COLS).

(** The [for row in range(ROWS - 1, -1, -1)] loop of [make_move], with
    its [break]. *)
Fixpoint drop_loop (new_board : board) (rows : list Z) (col player : Z) : board :=
  match rows with
  | [] => new_board
  | row :: rest =>
      if cell new_board row col =? EMPTY
      then set_cell new_board row col player
      else drop_loop new_board rest col player
  end.

Definition make_move (b : board) (col player : Z) : result board :=
  if (col <? 0) || (col >=? COLS) then Raise ValueError
  else if negb (cell b 0 col =? EMPTY) then Raise ValueError
  else
    let new_board := b in
    Ret (drop_loop new_board (range_down (ROWS - 1) (-1)) col player).

(** *** The same function over an object store

    [make_move] copies its argument before it writes.  To state that the
    caller's array is untouched, arrays live in a store at addresses,
    [board.copy()] allocates a fresh address, and the loop writes at that
    address only. *)
Abbreviation store := (list board).

Definition deref (h : store) (a : nat) : board := default [] (h !! a).

Fixpoint drop_loop_st (h : store) (new_board : nat) (rows : list Z)
    (col player : Z) : store :=
  match rows with
  | [] => h
  | row :: rest =>
      if cell (deref h new_board) row col =? EMPTY
      then <[new_board := set_cell (deref h new_board) row col player]> h
      else drop_loop_st h new_board rest col player
  end.

Definition make_move_st (h : store) (a : nat) (col player : Z)
    : store * result nat :=
  if (col <? 0) || (col >=? COLS) then (h, Raise ValueError)
  else if negb (cell (deref h a) 0 col =? EMPTY) then (h, Raise ValueError)
  else
    let new_board := length h in
    let h := h ++ [deref h a] in
    (drop_loop_st h new_board (range_down (ROWS - 1) (-1)) col player,
     Ret new_board).

(** *** Win detection *)

(** [np.all(window == player)] *)
Definition _check_window (window : list Z) (player : Z) : bool :=
  forallb (fun x => x =? player) window.

(** A [for] loop whose body may [return]: the first returned value. *)
Fixpoint for_return {A B : Type} (xs : list A) (body : A -> option B) : option B :=
  match xs with
  | [] => None
  | x :: rest =>
      match body x with
      | Some r => Some r
      | None => for_return rest body
      end
  end.

(** [for player in [PLAYER_1, PLAYER_2]: if _check_window(window, player): return player] *)
Definition window_owner (window : list Z) : option Z :=
  for_return [PLAYER_1; PLAYER_2]
    (fun player => if _check_window window player then Some player else None).

(** [board[row, col:col + WIN_LENGTH]] *)
Definition row_window (b : board) (row col : Z) : list Z :=
  map (fun c => cell b row c) (range col (col + WIN_LENGTH)).

(** [board[row:row + WIN_LENGTH, col]] *)
Definition col_window (b : board) (row col : Z) : list Z :=
  map (fun r => cell b r col) (range row (row + WIN_LENGTH)).

(** [[board[row + i][col + i] for i in range(WIN_LENGTH)]] *)
Definition pos_window (b : board) (row col : Z) : list Z :=
  map (fun i => cell b (row + i) (col + i)) (range 0 WIN_LENGTH).

(** [[board[row - i][col + i] for i in range(WIN_LENGTH)]] *)
Definition neg_window (b : board) (row col : Z) : list Z :=
  map (fun i => cell b (row - i) (col + i)) (range 0 WIN_LENGTH).

Definition get_winner (b : board) : option Z :=
  match
    for_return (range 0 ROWS) (fun row =>
      for_return (range 0 (COLS - WIN_LENGTH + 1)) (fun col =>
        window_owner (row_window b row col)))
  with
  | Some player => Some player
  | None =>
  match
    for_return (range 0 (ROWS - WIN_LENGTH + 1)) (fun row =>
      for_return (range 0 COLS) (fun col =>
        window_owner (col_window b row col)))
  with
  | Some player => Some player
  | None =>
  match
    for_return (range 0 (ROWS - WIN_LENGTH + 1)) (fun row =>
      for_return (range 0 (COLS - WIN_LENGTH + 1)) (fun col =>
        window_owner (pos_window b row col)))
  with
  | Some player => Some player
  | None =>
    for_return (range (WIN_LENGTH - 1) ROWS) (fun row =>
      for_return (range 0 (COLS - WIN_LENGTH + 1)) (fun col =>
        window_owner (neg_window b row col)))
  end end end.

Definition is_terminal (b : board) : bool :=
  match get_winner b with Some _ => true | None => false end
  || (Z.of_nat (length (get_legal_moves b)) =? 0).

(** [winner == ai_player], where [winner] may be [None] *)
Definition winner_is (winner : option Z) (player : Z) : bool :=
  match winner with
  | Some w => w =? player
  | None => false
  end.

Definition is_not_None {A : Type} (o : option A) : bool :=
  match o with Some _ => true | None => false end.

Definition utility (b : board) (ai_player : Z) : Z :=
  let winner := get_winner b in
  if winner_is winner ai_player then 1
  else if is_not_None winner then -1
  else 0.

Definition get_opponent (player : Z) : Z :=
  if player =? PLAYER_2 then PLAYER_1 else PLAYER_2.

(** ** minimax.py: heuristic evaluation *)

(** [np.count_nonzero(window == v)] *)
Definition count_eq (window : list Z) (v : Z) : Z :=
  Z.of_nat (length (List.filter (fun x => x =? v) window)).

Definition _score_window (window : list Z) (ai_player opponent : Z) : Z :=
  let score := 0 in
  let ai_count := count_eq window ai_player in
  let opp_count := count_eq window opponent in
  let empty_count := count_eq window EMPTY in
  let score :=
    if ai_count =? 4 then score + 100
    else if (ai_count =? 3) && (empty_count =? 1) then score + 10
    else if (ai_count =? 2) && (empty_count =? 2) then score + 5
    else score in
  let score :=
    if (opp_count =? 3) && (empty_count =? 1) then score - 8
    else if (opp_count =? 2) && (empty_count =? 2) then score - 4
    else score in
  score.

(** Two nested [for] loops that add [f row col] to [score]. *)
Definition for_for_add (rows cols : list Z) (f : Z -> Z -> Z) (score : Z) : Z :=
  fold_left (fun score row =>
    fold_left (fun score col => score + f row col) cols score) rows score.

Definition heuristic_evaluate (b : board) (ai_player : Z) : Z :=
  let opponent := get_opponent ai_player in
  let score := 0 in
  let center_col := COLS / 2 in
  let center_array := map (fun r => cell b r center_col) (range 0 ROWS) in
  let center_count := count_eq center_array ai_player in
  let score := score + center_count * 6 in
  let score :=
    for_for_add (range 0 ROWS) (range 0 (COLS - WIN_LENGTH + 1))
      (fun row col => _score_window (row_window b row col) ai_player opponent) score in
  let score :=
    for_for_add (range 0 (ROWS - WIN_LENGTH + 1)) (range 0 COLS)
      (fun row col => _score_window (col_window b row col) ai_player opponent) score in
  let score :=
    for_for_add (range 0 (ROWS - WIN_LENGTH + 1)) (range 0 (COLS - WIN_LENGTH + 1))
      (fun row col => _score_window (pos_window b row col) ai_player opponent) score in
  let score :=
    for_for_add (range (WIN_LENGTH - 1) ROWS) (range 0 (COLS - WIN_LENGTH + 1))
      (fun row col => _score_window (neg_window b row col) ai_player opponent) score in
  score.

(** ** minimax.py: move ordering *)

(** [sorted(xs, key=key)]: Python's sort is stable, so the result is the
    stable insertion sort. *)
Fixpoint insert_by_key (key : Z -> Z) (x : Z) (l : list Z) : list Z :=
  match l with
  | [] => [x]
  | y :: rest => if key x <=? key y then x :: y :: rest else y :: insert_by_key key x rest
  end.

Definition sorted (xs : list Z) (key : Z -> Z) : list Z :=
  fold_right (insert_by_key key) [] xs.

Definition _order_moves (moves : list Z) : list Z :=
  let center := COLS / 2 in
  sorted moves (fun col => Z.abs (col - center)).

(** ** minimax.py: search values *)

(** Python numbers as the search uses them: integers, [float("-inf")]
    and [float("inf")]. *)
Inductive value : Type := NegInf | Fin (z : Z) | PosInf.

(** [a < b] *)
Definition vlt (a b : value) : bool :=
  match a, b with
  | NegInf, NegInf => false
  | NegInf, _ => true
  | Fin x, Fin y => x <? y
  | Fin _, PosInf => true
  | Fin _, NegInf => false
  | PosInf, _ => false
  end.

(** [a >= b] *)
Definition vge (a b : value) : bool := negb (vlt a b).

(** [max(a, b)] returns [a] unless [b > a]; [min(a, b)] returns [a]
    unless [b < a]. *)
Definition vmax (a b : value) : value := if vlt a b then b else a.
Definition vmin (a b : value) : value := if vlt b a then b else a.

(** ** minimax.py: the search *)

(** The value returned on a terminal board. *)
Definition terminal_value (b : board) (depth ai_player : Z) : value :=
  let winner := get_winner b in
  if winner_is winner ai_player then Fin (1000 + depth)
  else if is_not_None winner then Fin (-1000 - depth)
  else Fin 0.

Section Loops.
  (** The recursive call [minimax(child_board, depth - 1, ..., alpha, beta, stats)],
      which returns the value and the updated node counter. *)
Variable rec : board -> value -> value -> nat -> result (value * nat).

  (** The [for col in legal_moves] loop of the maximizing branch. *)
Fixpoint max_loop (b : board) (ai_player : Z) (legal_moves : list Z)
      (max_eval alpha beta : value) (stats : nat) : result (value * nat) :=
    match legal_moves with
    | [] => Ret (max_eval, stats)
    | col :: rest =>
        child_board ← make_move b col ai_player;
        '(eval_score, stats) ← rec child_board alpha beta stats;
        let max_eval := vmax max_eval eval_score in
        let alpha := vmax alpha eval_score in
        if vge alpha beta then Ret (max_eval, stats)
        else max_loop b ai_player rest max_eval alpha beta stats
    end.

  (** The [for col in legal_moves] loop of the minimizing branch. *)
Fixpoint min_loop (b : board) (opponent : Z) (legal_moves : list Z)
      (min_eval alpha beta : value) (stats : nat) : result (value * nat) :=
    match legal_moves with
    | [] => Ret (min_eval, stats)
    | col :: rest =>
        child_board ← make_move b col opponent;
        '(eval_score, stats) ← rec child_board alpha beta stats;
        let min_eval := vmin min_eval eval_score in
        let beta := vmin beta eval_score in
        if vge alpha beta then Ret (min_eval, stats)
        else min_loop b opponent rest min_eval alpha beta stats
    end.
End Loops.

(** [minimax]: [stats] is the value of [stats["nodes_expanded"]] on
    entry, and the result carries its value on return. *)
Fixpoint minimax (fuel : nat) (b : board) (depth : Z) (maximizing : bool)
    (ai_player : Z) (alpha beta : value) (stats : nat) : result (value * nat) :=
  match fuel with
  | O => OutOfFuel
  | S fuel =>
      let stats := (stats + 1)%nat in
      if is_terminal b then Ret (terminal_value b depth ai_player, stats)
      else if depth =? 0 then Ret (Fin (heuristic_evaluate b ai_player), stats)
      else
        let legal_moves := get_legal_moves b in
        let legal_moves := _order_moves legal_moves in
        let opponent := get_opponent ai_player in
        if maximizing then
          max_loop (fun child alpha beta stats =>
                      minimax fuel child (depth - 1) false ai_player alpha beta stats)
            b ai_player legal_moves NegInf alpha beta stats
        else
          min_loop (fun child alpha beta stats =>
                      minimax fuel child (depth - 1) true ai_player alpha beta stats)
            b opponent legal_moves PosInf alpha beta stats
  end.

(** The [stats] dictionary that [get_best_move] returns; the wall-clock
    entry [time_seconds] is left out. *)
Record stats_dict : Type := { nodes_expanded : nat; depth_used : Z }.

(** The root loop of [get_best_move]. *)
Fixpoint root_loop (search : board -> nat -> result (value * nat))
    (b : board) (ai_player : Z) (legal_moves : list Z)
    (best_score : value) (best_col : Z) (stats : nat) : result (Z * nat) :=
  match legal_moves with
  | [] => Ret (best_col, stats)
  | col :: rest =>
      child_board ← make_move b col ai_player;
      '(score, stats) ← search child_board stats;
      if vlt best_score score
      then root_loop search b ai_player rest score col stats
      else root_loop search b ai_player rest best_score best_col stats
  end.

Definition get_best_move (fuel : nat) (b : board) (ai_player max_depth : Z)
    : result (Z * stats_dict) :=
  let stats := 0%nat in
  let legal_moves := get_legal_moves b in
  let legal_moves := _order_moves legal_moves in
  let best_score := NegInf in
  best_col ← match legal_moves with
             | [] => Raise IndexError
             | col :: _ => Ret col
             end;
  '(best_col, stats) ←
    root_loop (fun child stats =>
                 minimax fuel child (max_depth - 1) false ai_player NegInf PosInf stats)
      b ai_player legal_moves best_score best_col stats;
  Ret (best_col, {| nodes_expanded := stats; depth_used := max_depth |}).

(** ** The unpruned search of the specification

    The reference against which the pruned search is compared: the same
    recursion with no bounds and no cutoff, so that every legal move of
    every inner node is searched. *)
Module Unpruned.

Section Loops.
Variable rec : board -> nat -> result (value * nat).

Fixpoint max_loop (b : board) (ai_player : Z) (legal_moves : list Z)
        (max_eval : value) (stats : nat) : result (value * nat) :=
      match legal_moves with
      | [] => Ret (max_eval, stats)
      | col :: rest =>
          child_board ← make_move b col ai_player;
          '(eval_score, stats) ← rec child_board stats;
          max_loop b ai_player rest (vmax max_eval eval_score) stats
      end.

Fixpoint min_loop (b : board) (opponent : Z) (legal_moves : list Z)
        (min_eval : value) (stats : nat) : result (value * nat) :=
      match legal_moves with
      | [] => Ret (min_eval, stats)
      | col :: rest =>
          child_board ← make_move b col opponent;
          '(eval_score, stats) ← rec child_board stats;
          min_loop b opponent rest (vmin min_eval eval_score) stats
      end.
End Loops.

Fixpoint minimax (fuel : nat) (b : board) (depth : Z) (maximizing : bool)
      (ai_player : Z) (stats : nat) : result (value * nat) :=
    match fuel with
    | O => OutOfFuel
    | S fuel =>
        let stats := (stats + 1)%nat in
        if is_terminal b then Ret (terminal_value b depth ai_player, stats)
        else if depth =? 0 then Ret (Fin (heuristic_evaluate b ai_player), stats)
        else
          let legal_moves := _order_moves (get_legal_moves b) in
          let opponent := get_opponent ai_player in
          if maximizing then
            max_loop (fun child stats =>
                        minimax fuel child (depth - 1) false ai_player stats)
              b ai_player legal_moves NegInf stats
          else
            min_loop (fun child stats =>
                        minimax fuel child (depth - 1) true ai_player stats)
              b opponent legal_moves PosInf stats
    end.

Definition get_best_move (fuel : nat) (b : board) (ai_player max_depth : Z)
      : result (Z * stats_dict) :=
    let legal_moves := _order_moves (get_legal_moves b) in
    best_col ← match legal_moves with
               | [] => Raise IndexError
               | col :: _ => Ret col
               end;
    '(best_col, stats) ←
      root_loop (fun child stats =>
                   minimax fuel child (max_depth - 1) false ai_player stats)
        b ai_player legal_moves NegInf best_col 0%nat;
    Ret (best_col, {| nodes_expanded := stats; depth_used := max_depth |}).

End Unpruned.

(** Number of empty cells: the measure that bounds the recursion. *)
Definition count_empty (b : board) : nat :=
  length (List.filter (fun x => x =? EMPTY) (concat b)).

Definition valid_player (p : Z) : Prop := p = PLAYER_1 \/ p = PLAYER_2.

(** ** Definitions used by the statements and the proofs *)

(** The row the piece lands in: the lowest empty cell of the column. *)
Definition lowest_empty (b : board) (col row : Z) : Prop :=
  0 <= row < ROWS /\ cell b row col = EMPTY /\
  forall r, row < r < ROWS -> cell b r col <> EMPTY.

(** No empty cell below a piece, in any column. *)
Definition gravity (b : board) : Prop :=
  forall r r' c, 0 <= r < r' -> r' < ROWS -> 0 <= c < COLS ->
    cell b r c <> EMPTY -> cell b r' c <> EMPTY.

(** The four directions a window can run in, from its anchor cell. *)
Inductive direction : Type := Horizontal | Vertical | Falling | Rising.

#[global] Instance direction_eq_dec : EqDecision direction.
Proof. solve_decision. Defined.

Definition step (d : direction) : Z * Z :=
  match d with
  | Horizontal => (0, 1)
  | Vertical => (1, 0)
  | Falling => (1, 1)
  | Rising => (-1, 1)
  end.

(** A window: anchor row, anchor column, direction. *)
Definition window : Type := Z * Z * direction.

(** The cell values of a window, anchor first. *)
Definition window_values (b : board) (w : window) : list Z :=
  let '(row, col, d) := w in
  let '(dr, dc) := step d in
  map (fun i => cell b (row + i * dr) (col + i * dc)) (range 0 WIN_LENGTH).

(** All four cells of the window lie on the board. *)
Definition window_in_board (w : window) : Prop :=
  let '(row, col, d) := w in
  forall i, 0 <= i < WIN_LENGTH ->
    0 <= row + i * fst (step d) < ROWS /\ 0 <= col + i * snd (step d) < COLS.

(** Anchors enumerated row by row, and column by column. *)
Definition row_major (rows cols : list Z) (d : direction) : list window :=
  flat_map (fun row => map (fun col => (row, col, d)) cols) rows.

Definition col_major (rows cols : list Z) (d : direction) : list window :=
  flat_map (fun col => map (fun row => (row, col, d)) rows) cols.

(** The order in which the four loop nests of [get_winner] and of
    [heuristic_evaluate] visit the windows. *)
Definition scan_order : list window :=
  row_major (range 0 ROWS) (range 0 (COLS - WIN_LENGTH + 1)) Horizontal
  ++ row_major (range 0 (ROWS - WIN_LENGTH + 1)) (range 0 COLS) Vertical
  ++ row_major (range 0 (ROWS - WIN_LENGTH + 1)) (range 0 (COLS - WIN_LENGTH + 1)) Falling
  ++ row_major (range (WIN_LENGTH - 1) ROWS) (range 0 (COLS - WIN_LENGTH + 1)) Rising.

(** The order the specification words: vertical windows column by
    column. *)
Definition spec_scan_order : list window :=
  row_major (range 0 ROWS) (range 0 (COLS - WIN_LENGTH + 1)) Horizontal
  ++ col_major (range 0 (ROWS - WIN_LENGTH + 1)) (range 0 COLS) Vertical
  ++ row_major (range 0 (ROWS - WIN_LENGTH + 1)) (range 0 (COLS - WIN_LENGTH + 1)) Falling
  ++ row_major (range (WIN_LENGTH - 1) ROWS) (range 0 (COLS - WIN_LENGTH + 1)) Rising.

(** The winner under a given scan order: the owner of the first window
    that one player fills. *)
Definition first_owner (b : board) (order : list window) : option Z :=
  for_return order (fun w => window_owner (window_values b w)).

(** One player fills the window. *)
Definition filled_by (b : board) (w : window) (p : Z) : Prop :=
  valid_player p /\ Forall (fun x => x = p) (window_values b w).

(** A board on which each player fills a vertical window: the second
    player in column 0 (rows 1 to 4), the first in column 1 (rows 0 to 3). *)
Definition two_columns : board :=
  [ [0; 1; 0; 0; 0; 0; 0];
    [2; 1; 0; 0; 0; 0; 0];
    [2; 1; 0; 0; 0; 0; 0];
    [2; 1; 0; 0; 0; 0; 0];
    [2; 2; 0; 0; 0; 0; 0];
    [1; 2; 0; 0; 0; 0; 0] ].

(** The score of a window as the specification words it: one case list
    over the three counts. *)
Definition spec_window_score (ai opp empty : Z) : Z :=
  if ai =? 4 then 100
  else if (ai =? 3) && (empty =? 1) then 10
  else if (ai =? 2) && (empty =? 2) then 5
  else if (opp =? 3) && (empty =? 1) then -8
  else if (opp =? 2) && (empty =? 2) then -4
  else 0.

Definition in_boardb (w : window) : bool :=
  let '(row, col, d) := w in
  forallb (fun i =>
    (0 <=? row + i * fst (step d)) && (row + i * fst (step d) <? ROWS)
    && (0 <=? col + i * snd (step d)) && (col + i * snd (step d) <? COLS))
    (range 0 WIN_LENGTH).

(** Every window of four cells on the board: any anchor cell, any of the
    four directions, kept when the window stays on the board. *)
Definition all_windows : list window :=
  List.filter in_boardb
    (flat_map (fun d => row_major (range 0 ROWS) (range 0 COLS) d)
       [Horizontal; Vertical; Falling; Rising]).

Definition sum_list (l : list Z) : Z := fold_right Z.add 0 l.

Definition spec_evaluate (b : board) (player : Z) : Z :=
  let opponent := get_opponent player in
  6 * count_eq (map (fun row => cell b row (COLS / 2)) (range 0 ROWS)) player
  + sum_list (map (fun w =>
      spec_window_score (count_eq (window_values b w) player)
                        (count_eq (window_values b w) opponent)
                        (count_eq (window_values b w) EMPTY))
      all_windows).

(** The score the code gives a window. *)
Definition code_window_score (b : board) (player : Z) (w : window) : Z :=
  _score_window (window_values b w) player (get_opponent player).

(** Distance from the center column. *)
Definition center_distance (col : Z) : Z := Z.abs (col - COLS / 2).

(** The order and the operations on values in a form that computes to
    linear arithmetic once the infinities are told apart. *)
Definition vless (a b : value) : Prop :=
  match a, b with
  | NegInf, NegInf => False
  | NegInf, _ => True
  | Fin x, Fin y => x < y
  | Fin _, PosInf => True
  | Fin _, NegInf => False
  | PosInf, _ => False
  end.

Definition vsame (a b : value) : Prop :=
  match a, b with
  | NegInf, NegInf | PosInf, PosInf => True
  | Fin x, Fin y => x = y
  | _, _ => False
  end.

Definition vmaxZ (a b : value) : value :=
  match a, b with
  | NegInf, x | x, NegInf => x
  | PosInf, _ | _, PosInf => PosInf
  | Fin x, Fin y => Fin (Z.max x y)
  end.

Definition vminZ (a b : value) : value :=
  match a, b with
  | PosInf, x | x, PosInf => x
  | NegInf, _ | _, NegInf => NegInf
  | Fin x, Fin y => Fin (Z.min x y)
  end.

(** What the loops need of the recursive call: it returns a finite value
    and counts at least one node. *)
Definition returns_finite (rec : board -> value -> value -> nat -> result (value * nat))
    (child : board) : Prop :=
  forall alpha beta stats, exists v stats',
    rec child alpha beta stats = Ret (Fin v, stats') /\ (stats < stats')%nat.

(** What a search with window ([alpha], [beta]) that returned [r] says
    about the unpruned value [f]: below the window [r] is an upper bound,
    inside it [r] is exact, above it [r] is a lower bound. *)
Definition bracket (alpha beta r f : value) : Prop :=
  (vlt alpha r = false -> vlt r f = false)
  /\ (vlt alpha r = true -> vlt r beta = true -> f = r)
  /\ (vlt r beta = false -> vlt f r = false).

Definition returns_finite_full (rec : board -> nat -> result (value * nat))
    (child : board) : Prop :=
  forall stats, exists v stats',
    rec child stats = Ret (Fin v, stats') /\ (stats < stats')%nat.

(** On [child] both searches return, and the pruned result brackets the
    unpruned one while counting no more nodes. *)
Definition sound_at (rec : board -> value -> value -> nat -> result (value * nat))
    (recF : board -> nat -> result (value * nat)) (child : board) : Prop :=
  returns_finite rec child
  /\ returns_finite_full recF child
  /\ forall alpha beta s sF r s' f sF',
       vlt alpha beta = true ->
       rec child alpha beta s = Ret (r, s') ->
       recF child sF = Ret (f, sF') ->
       bracket alpha beta r f /\ (s' + sF <= sF' + s)%nat.

(** The choice of the root loop, from the scores of the root moves. *)
Fixpoint pick (score : Z -> Z) (cols : list Z) (best_score : value) (best_col : Z) : Z :=
  match cols with
  | [] => best_col
  | col :: rest =>
      if vlt best_score (Fin (score col))
      then pick score rest (Fin (score col)) col
      else pick score rest best_score best_col
  end.

(** The score of a root move: the value the pruned search gives its child
    board. *)
Definition root_score (fuel : nat) (b : board) (ai_player max_depth col : Z) : Z :=
  match make_move b col ai_player with
  | Ret child =>
      match minimax fuel child (max_depth - 1) false ai_player NegInf PosInf 0 with
      | Ret (Fin v, _) => v
      | _ => 0
      end
  | _ => 0
  end.

(** [minimax] without the test [depth == 0]: the search that stops at
    terminal boards only. *)
Fixpoint search_to_end (fuel : nat) (b : board) (depth : Z) (maximizing : bool)
    (ai_player : Z) (alpha beta : value) (stats : nat) : result (value * nat) :=
  match fuel with
  | O => OutOfFuel
  | S fuel =>
      let stats := (stats + 1)%nat in
      if is_terminal b then Ret (terminal_value b depth ai_player, stats)
      else
        let legal_moves := _order_moves (get_legal_moves b) in
        let opponent := get_opponent ai_player in
        if maximizing then
          max_loop (fun child alpha beta stats =>
                      search_to_end fuel child (depth - 1) false ai_player alpha beta stats)
            b ai_player legal_moves NegInf alpha beta stats
        else
          min_loop (fun child alpha beta stats =>
                      search_to_end fuel child (depth - 1) true ai_player alpha beta stats)
            b opponent legal_moves PosInf alpha beta stats
  end.

(** A board on which the second player wins at once in column 3. *)
Definition three_in_row : board :=
  [ [0; 0; 0; 0; 0; 0; 0];
    [0; 0; 0; 0; 0; 0; 0];
    [0; 0; 0; 0; 0; 0; 0];
    [0; 0; 0; 0; 0; 0; 0];
    [1; 1; 1; 0; 0; 0; 0];
    [2; 2; 2; 0; 0; 0; 0] ].

(** ** main.py: the interactive game

    Standard input is the list of the lines still to be read; [input()]
    on the empty list raises [EOFError].  What is printed is left out,
    except for the kind of each rejected move.  The string methods
    [strip] and [lower] and the conversion [int] (which is [None] where
    Python raises [ValueError]) are parameters. *)

Inductive io_exn : Type :=
| EOFError
| SystemExit
| SearchError (e : exn).

(** A computation that reads lines: its value and the remaining input, an
    exception, or (for the fuel-driven game loop only) no fuel left. *)
Inductive io_result (A : Type) : Type :=
| Returned (a : A) (stdin : list string)
| Aborted (e : io_exn)
| NoFuel.
Arguments Returned {A} a stdin.
Arguments Aborted {A} e.
Arguments NoFuel {A}.

(** The message a rejected move is answered with. *)
Inductive rejection : Type :=
| NotANumber
| OutOfBounds
| ColumnFull (shown : Z).

(** What the game loop reports when it returns. *)
Record summary : Type :=
  { final_board : board;
    winner : option Z;
    total_nodes : nat;
    move_count : nat }.

Section Interactive.
Variable strip : string -> string.
Variable lower : string -> string.
Variable int : string -> option Z.

Fixpoint choose_player_order (stdin : list string) : io_result (Z * Z) :=
  match stdin with
  | [] => Aborted EOFError
  | line :: stdin =>
      let choice := lower (strip line) in
      if String.eqb choice "y" || String.eqb choice "yes"
      then Returned (PLAYER_1, PLAYER_2) stdin
      else if String.eqb choice "n" || String.eqb choice "no"
      then Returned (PLAYER_2, PLAYER_1) stdin
      else choose_player_order stdin
  end.

Fixpoint choose_difficulty (stdin : list string) : io_result Z :=
  match stdin with
  | [] => Aborted EOFError
  | line :: stdin =>
      let choice := strip line in
      if String.eqb choice "1" then Returned 3 stdin
      else if String.eqb choice "2" then Returned 5 stdin
      else if String.eqb choice "3" then Returned 7 stdin
      else choose_difficulty stdin
  end.

(** The [while True] loop of [get_human_move]; the rejections are the
    error messages printed on the way. *)
Fixpoint human_move_loop (legal : list Z) (stdin : list string)
    : io_result Z * list rejection :=
  match stdin with
  | [] => (Aborted SystemExit, [])
  | line :: stdin =>
      let raw := strip line in
      match int raw with
      | None =>
          let '(r, out) := human_move_loop legal stdin in (r, NotANumber :: out)
      | Some n =>
          let col := n - 1 in
          if (col <? 0) || (col >=? COLS) then
            let '(r, out) := human_move_loop legal stdin in (r, OutOfBounds :: out)
          else if negb (existsb (fun c => c =? col) legal) then
            let '(r, out) := human_move_loop legal stdin in
            (r, ColumnFull (col + 1) :: out)
          else (Returned col stdin, [])
      end
  end.

Definition get_human_move (b : board) (stdin : list string)
    : io_result Z * list rejection :=
  let legal := get_legal_moves b in
  human_move_loop legal stdin.

(** An exception of the board model or of the search, passed on. *)
Definition lift {A : Type} (r : result A) (k : A -> io_result summary)
    : io_result summary :=
  match r with
  | Ret a => k a
  | Raise e => Aborted (SearchError e)
  | OutOfFuel => NoFuel
  end.

(** The [while True] loop of [play_game]: [turns] bounds the number of
    turns, [fuel] drives the search. *)
Fixpoint game_loop (turns fuel : nat) (human_player ai_player depth : Z)
    (b : board) (current_player : Z) (stdin : list string)
    (total_nodes move_count : nat) : io_result summary :=
  match turns with
  | O => NoFuel
  | S turns =>
      let after_move (b : board) (stdin : list string) (total_nodes move_count : nat) :=
        if is_terminal b then
          Returned {| final_board := b; winner := get_winner b;
                      total_nodes := total_nodes; move_count := move_count |} stdin
        else
          game_loop turns fuel human_player ai_player depth b
            (get_opponent current_player) stdin total_nodes move_count in
      if current_player =? human_player then
        match fst (get_human_move b stdin) with
        | Returned col stdin =>
            lift (make_move b col human_player) (fun b =>
              after_move b stdin total_nodes move_count)
        | Aborted e => Aborted e
        | NoFuel => NoFuel
        end
      else
        lift (get_best_move fuel b ai_player depth) (fun '(col, stats) =>
          lift (make_move b col ai_player) (fun b =>
            after_move b stdin (total_nodes + nodes_expanded stats)%nat
              (move_count + 1)%nat))
  end.

Definition play_game (turns fuel : nat) (stdin : list string) : io_result summary :=
  match choose_player_order stdin with
  | Returned (human_player, ai_player) stdin =>
      match choose_difficulty stdin with
      | Returned depth stdin =>
          let b := create_board in
          let current_player := PLAYER_1 in
          game_loop turns fuel human_player ai_player depth b current_player stdin 0 0
      | Aborted e => Aborted e
      | NoFuel => NoFuel
      end
  | Aborted e => Aborted e
  | NoFuel => NoFuel
  end.

End Interactive.

(** The number of cells that hold [v]. *)
Definition count_cells (b : board) (v : Z) : nat :=
  length (List.filter (fun x => x =? v) (concat b)).

(** * Properties *)

(** ** Sanity checks on concrete inputs *)

Example order_all : _order_moves [0; 1; 2; 3; 4; 5; 6] = [3; 2; 4; 1; 5; 0; 6].
Proof. reflexivity. Qed.

Example best_empty_1 :
  get_best_move 43 create_board PLAYER_2 1
  = Ret (3, {| nodes_expanded := 7; depth_used := 1 |}).
Proof. vm_compute. reflexivity. Qed.

(** ** Ranges *)

Lemma elem_range lo hi x : In x (range lo hi) <-> lo <= x < hi.
Proof.
  unfold range. rewrite in_map_iff. split.
  - intros (i & <- & Hi). apply in_seq in Hi. lia.
  - intros H. exists (Z.to_nat (x - lo)). split; [lia|]. apply in_seq. lia.
Qed.

Lemma rows_down : range_down (ROWS - 1) (-1) = [5; 4; 3; 2; 1; 0].
Proof. reflexivity. Qed.

Lemma cols_up : range 0 COLS = [0; 1; 2; 3; 4; 5; 6].
Proof. reflexivity. Qed.

(** ** Reading and writing cells *)

Lemma wf_create_board : wf_board create_board.
Proof. split; [reflexivity|]. repeat constructor. Qed.

Lemma wf_row b i r : wf_board b -> b !! i = Some r -> length r = Z.to_nat COLS.
Proof.
  intros [_ HF] Hi. rewrite Forall_forall in HF. apply HF.
  apply list_elem_of_lookup. eauto.
Qed.

Lemma wf_lookup b row :
  wf_board b -> 0 <= row < ROWS -> exists r, b !! Z.to_nat row = Some r.
Proof.
  intros [HL _] Hr. apply lookup_lt_is_Some. rewrite HL. unfold ROWS in *. lia.
Qed.

Lemma wf_set_cell b row col v : wf_board b -> wf_board (set_cell b row col v).
Proof.
  intros Hwf. unfold set_cell. destruct (b !! Z.to_nat row) as [r|] eqn:E; [|assumption].
  destruct Hwf as [HL HF]. split.
  - now rewrite length_insert.
  - apply Forall_insert; [assumption|]. rewrite length_insert.
    eapply wf_row; [split|]; eauto.
Qed.

Lemma cell_set_cell b row col v r c :
  wf_board b -> 0 <= row < ROWS -> 0 <= col < COLS -> 0 <= r -> 0 <= c ->
  cell (set_cell b row col v) r c
  = if (r =? row) && (c =? col) then v else cell b r c.
Proof.
  intros Hwf Hrow Hcol Hr Hc.
  destruct (wf_lookup b row Hwf Hrow) as [x Hx].
  assert (Hlen : length x = Z.to_nat COLS) by (eapply wf_row; eauto).
  unfold set_cell, cell. rewrite Hx.
  destruct (Z.eqb_spec r row) as [->|Hne].
  - rewrite list_lookup_insert_eq by (eapply lookup_lt_Some; eauto). rewrite Hx.
    destruct (Z.eqb_spec c col) as [->|Hne]; simpl.
    + rewrite list_lookup_insert_eq; [reflexivity|]. rewrite Hlen. unfold COLS in *. lia.
    + rewrite list_lookup_insert_ne by lia. reflexivity.
  - simpl. rewrite list_lookup_insert_ne by lia. reflexivity.
Qed.

Lemma count_empty_app (b1 b2 : board) :
  count_empty (b1 ++ b2) = (count_empty b1 + count_empty b2)%nat.
Proof. unfold count_empty. now rewrite concat_app, List.filter_app, length_app. Qed.

Lemma count_empty_cons (r : list Z) (b : board) :
  count_empty (r :: b)
  = (length (List.filter (fun x => (x =? EMPTY)%Z) r) + count_empty b)%nat.
Proof. unfold count_empty. simpl. now rewrite List.filter_app, length_app. Qed.

(** Writing a piece into an empty cell removes one empty cell. *)
Lemma count_empty_set_cell b row col v :
  wf_board b -> 0 <= row < ROWS -> 0 <= col < COLS ->
  cell b row col = EMPTY -> v <> EMPTY ->
  S (count_empty (set_cell b row col v)) = count_empty b.
Proof.
  intros Hwf Hrow Hcol Hcell Hv.
  destruct (wf_lookup b row Hwf Hrow) as [x Hx].
  assert (Hlen : length x = Z.to_nat COLS) by (eapply wf_row; eauto).
  assert (Hc : (Z.to_nat col < length x)%nat) by (rewrite Hlen; unfold COLS in *; lia).
  destruct (lookup_lt_is_Some_2 _ _ Hc) as [y Hy].
  unfold cell in Hcell. rewrite Hx, Hy in Hcell. simpl in Hcell. subst y.
  unfold set_cell. rewrite Hx.
  rewrite insert_take_drop by (eapply lookup_lt_Some; eauto).
  rewrite <- (take_drop_middle b _ _ Hx) at 3.
  rewrite !count_empty_app, !count_empty_cons.
  rewrite (insert_take_drop x) by assumption.
  rewrite <- (take_drop_middle x _ _ Hy) at 3.
  rewrite !List.filter_app, !length_app. simpl.
  destruct (Z.eqb_spec v EMPTY); [contradiction|].
  change (EMPTY =? EMPTY) with true. simpl. lia.
Qed.

(** ** make_move *)

Ltac zbool :=
  repeat match goal with
  | |- context [?a >=? ?b] => rewrite (Z.geb_leb a b)
  | H : context [?a >=? ?b] |- _ => rewrite (Z.geb_leb a b) in H
  end;
  repeat match goal with
  | |- context [?a <? ?b] => destruct (Z.ltb_spec a b)
  | |- context [?a <=? ?b] => destruct (Z.leb_spec a b)
  | |- context [?a =? ?b] => destruct (Z.eqb_spec a b)
  | H : context [?a <? ?b] |- _ => destruct (Z.ltb_spec a b)
  | H : context [?a <=? ?b] |- _ => destruct (Z.leb_spec a b)
  | H : context [?a =? ?b] |- _ => destruct (Z.eqb_spec a b)
  end; simpl in *.

Lemma legal_move_iff b col :
  In col (get_legal_moves b) <-> 0 <= col < COLS /\ cell b 0 col = EMPTY.
Proof.
  unfold get_legal_moves. rewrite filter_In, elem_range, Z.eqb_eq. tauto.
Qed.

Lemma make_move_raises b col player :
  make_move b col player = Raise ValueError
  <-> col < 0 \/ col >= COLS \/ cell b 0 col <> EMPTY.
Proof.
  unfold make_move. zbool; split; intros; try discriminate; try reflexivity; lia.
Qed.

Lemma make_move_ok b col player :
  wf_board b -> 0 <= col < COLS -> cell b 0 col = EMPTY ->
  exists row, lowest_empty b col row /\
    make_move b col player = Ret (set_cell b row col player).
Proof.
  intros Hwf Hcol Htop. unfold make_move, lowest_empty. rewrite rows_down.
  unfold COLS, ROWS in *.
  replace ((col <? 0) || (col >=? 7)) with false by (zbool; lia).
  rewrite Htop. simpl.
  destruct (Z.eqb_spec (cell b 5 col) EMPTY) as [E5|E5];
    [exists 5; repeat split; try lia; assumption|].
  destruct (Z.eqb_spec (cell b 4 col) EMPTY) as [E4|E4];
    [exists 4; repeat split; try lia; try assumption;
     intros r Hr; assert (r = 5) as -> by lia; assumption|].
  destruct (Z.eqb_spec (cell b 3 col) EMPTY) as [E3|E3];
    [exists 3; repeat split; try lia; try assumption;
     intros r Hr; assert (r = 4 \/ r = 5) as [-> | ->] by lia; assumption|].
  destruct (Z.eqb_spec (cell b 2 col) EMPTY) as [E2|E2];
    [exists 2; repeat split; try lia; try assumption;
     intros r Hr; assert (r = 3 \/ r = 4 \/ r = 5) as [-> | [-> | ->]] by lia;
     assumption|].
  destruct (Z.eqb_spec (cell b 1 col) EMPTY) as [E1|E1];
    [exists 1; repeat split; try lia; try assumption;
     intros r Hr;
     assert (r = 2 \/ r = 3 \/ r = 4 \/ r = 5) as [-> | [-> | [-> | ->]]] by lia;
     assumption|].
  rewrite Htop. simpl.
  exists 0; repeat split; try lia; try assumption.
  intros r Hr.
  assert (r = 1 \/ r = 2 \/ r = 3 \/ r = 4 \/ r = 5)
    as [-> | [-> | [-> | [-> | ->]]]] by lia; assumption.
Qed.

(** A legal move never raises, keeps the shape, and (for a piece that is
    not [EMPTY]) fills exactly one empty cell. *)
Lemma make_move_legal b col player :
  wf_board b -> In col (get_legal_moves b) ->
  exists child, make_move b col player = Ret child /\ wf_board child /\
    (player <> EMPTY -> S (count_empty child) = count_empty b).
Proof.
  intros Hwf [Hcol Htop]%legal_move_iff.
  destruct (make_move_ok b col player Hwf Hcol Htop) as (row & (Hrow & He & _) & ->).
  eexists; split; [reflexivity|]. split; [now apply wf_set_cell|].
  intros Hp. now apply count_empty_set_cell.
Qed.

(** The store version allocates a copy and then behaves as the pure one. *)
Lemma drop_loop_st_pure (h : store) (a : nat) rows col player :
  (a < length h)%nat ->
  drop_loop_st h a rows col player
  = <[a := drop_loop (deref h a) rows col player]> h.
Proof.
  intros Ha. destruct (lookup_lt_is_Some_2 _ _ Ha) as [x Hx].
  induction rows as [|row rest IH]; simpl.
  - unfold deref. rewrite Hx. simpl. symmetry. now apply list_insert_id.
  - destruct (cell (deref h a) row col =? EMPTY); [reflexivity|apply IH].
Qed.

Lemma make_move_st_pure (h : store) (a : nat) col player :
  make_move_st h a col player
  = match make_move (deref h a) col player with
    | Ret child => (h ++ [child], Ret (length h))
    | Raise e => (h, Raise e)
    | OutOfFuel => (h, OutOfFuel)
    end.
Proof.
  unfold make_move_st, make_move.
  destruct ((col <? 0) || (col >=? COLS)); [reflexivity|].
  destruct (negb (cell (deref h a) 0 col =? EMPTY)); [reflexivity|].
  cbv zeta. rewrite drop_loop_st_pure by (rewrite length_app; simpl; lia).
  f_equal.
  assert (Hd : deref (h ++ [deref h a]) (length h) = deref h a).
  { unfold deref at 1. rewrite lookup_app_r by lia.
    now replace (length h - length h)%nat with 0%nat by lia. }
  rewrite Hd.
  rewrite insert_app_r_alt by lia.
  now replace (length h - length h)%nat with 0%nat by lia.
Qed.

(** ** Gravity *)

Lemma cell_create_board r c : cell create_board r c = EMPTY.
Proof.
  unfold cell, create_board.
  destruct (replicate _ _ !! Z.to_nat r) as [x|] eqn:E; [|reflexivity].
  apply lookup_replicate in E as [-> _].
  destruct (replicate _ _ !! Z.to_nat c) as [y|] eqn:E'; [|reflexivity].
  now apply lookup_replicate in E' as [-> _].
Qed.

Lemma gravity_create_board : gravity create_board.
Proof. intros r r' c _ _ _ H. now rewrite cell_create_board in H. Qed.

Lemma center_legal_on_empty : In 3 (get_legal_moves create_board).
Proof. vm_compute. tauto. Qed.

(** C4: [make_move] raises [ValueError] exactly when the column is outside
    [0, COLS) or the top cell of the column is occupied.  Otherwise it
    returns a freshly allocated board that equals the input except that the
    player's piece sits in the lowest empty cell of the column.  In both
    cases every array that was in the store before the call, the input
    among them, is unchanged. *)
Theorem make_move_contract (h : store) (a : nat) (col player : Z) :
  wf_board (deref h a) ->
  let b := deref h a in
  let h' := fst (make_move_st h a col player) in
  let r := snd (make_move_st h a col player) in
  let invalid := col < 0 \/ col >= COLS \/ cell b 0 col <> EMPTY in
  (r = Raise ValueError <-> invalid) /\
  (~ invalid ->
   exists row, lowest_empty b col row /\
     r = Ret (length h) /\
     make_move b col player = Ret (deref h' (length h)) /\
     wf_board (deref h' (length h)) /\
     forall r0 c0, 0 <= r0 < ROWS -> 0 <= c0 < COLS ->
       cell (deref h' (length h)) r0 c0
       = if (r0 =? row) && (c0 =? col) then player else cell b r0 c0) /\
  (forall a0, (a0 < length h)%nat -> h' !! a0 = h !! a0).
Proof.
  intros Hwf b h' r invalid. subst h' r. rewrite make_move_st_pure. fold b.
  pose proof (make_move_raises b col player) as Hraise. fold invalid in Hraise.
  assert (Hok : ~ invalid -> exists row, lowest_empty b col row /\
                  make_move b col player = Ret (set_cell b row col player)).
  { intros Hn. apply make_move_ok; [assumption| |];
      unfold invalid in Hn; [lia|].
    destruct (Z.eq_dec (cell b 0 col) EMPTY); tauto. }
  split; [|split].
  - destruct (make_move b col player) as [child|e|] eqn:E; simpl.
    + split; [discriminate|]. intros Hi. apply Hraise in Hi. discriminate.
    + split; [intros [= ->]; now apply Hraise|].
      intros Hi. apply Hraise in Hi. now injection Hi as ->.
    + split; [discriminate|]. intros Hi. apply Hraise in Hi. discriminate.
  - intros Hn. destruct (Hok Hn) as (row & Hlow & ->). simpl.
    assert (Hd : deref (h ++ [set_cell b row col player]) (length h)
                 = set_cell b row col player).
    { unfold deref. rewrite lookup_app_r by lia.
      now replace (length h - length h)%nat with 0%nat by lia. }
    rewrite Hd. exists row. repeat split; try apply Hlow.
    + now apply wf_set_cell.
    + apply wf_set_cell; assumption.
    + intros r0 c0 Hr0 Hc0. apply cell_set_cell; try lia; try assumption.
      * apply Hlow.
      * unfold invalid in Hn. lia.
  - intros a0 Ha0.
    destruct (make_move b col player); simpl; try reflexivity.
    now apply lookup_app_l.
Qed.

Lemma make_move_contract_witness :
  wf_board (deref [create_board] 0)
  /\ snd (make_move_st [create_board] 0 3 PLAYER_1) = Ret 1%nat
  /\ fst (make_move_st [create_board] 0 3 PLAYER_1) !! 0%nat = Some create_board.
Proof.
  split; [exact wf_create_board|].
  destruct (make_move_contract [create_board] 0 3 PLAYER_1 wf_create_board)
    as (_ & H & Hold).
  split.
  - destruct H as (row & _ & Hr & _); [|exact Hr].
    intros [H|[H|H]]; [unfold COLS in *; lia..|]. apply H. reflexivity.
  - apply (Hold 0%nat). simpl. lia.
Defined.

(** C6: on a board that satisfies the gravity invariant, every legal move
    by either player returns a board that satisfies it too. *)
Theorem make_move_gravity (b : board) (col player : Z) :
  wf_board b -> gravity b -> In col (get_legal_moves b) -> valid_player player ->
  exists child, make_move b col player = Ret child /\ gravity child.
Proof.
  intros Hwf Hg [Hcol Htop]%legal_move_iff Hp.
  destruct (make_move_ok b col player Hwf Hcol Htop) as (row & (Hrow & He & Hlow) & ->).
  eexists; split; [reflexivity|].
  intros r r' c Hr Hr' Hc.
  rewrite !cell_set_cell by (try assumption; lia).
  destruct (Z.eqb_spec r' row) as [->|Hn'], (Z.eqb_spec c col) as [->|Hnc]; simpl.
  - intros _. destruct Hp as [-> | ->]; discriminate.
  - rewrite andb_false_r. apply Hg; assumption.
  - destruct (Z.eqb_spec r row) as [->|Hn]; simpl.
    + intros _. apply Hlow. lia.
    + apply Hg; assumption.
  - rewrite andb_false_r. apply Hg; assumption.
Qed.

Lemma make_move_gravity_witness :
  exists child, make_move create_board 3 PLAYER_1 = Ret child /\ gravity child.
Proof.
  apply (make_move_gravity create_board 3 PLAYER_1).
  - exact wf_create_board.
  - exact gravity_create_board.
  - exact center_legal_on_empty.
  - left. reflexivity.
Defined.

(** ** Windows *)

Lemma for_return_app {A B} (l1 l2 : list A) (f : A -> option B) :
  for_return (l1 ++ l2) f
  = match for_return l1 f with Some r => Some r | None => for_return l2 f end.
Proof. induction l1 as [|x l1 IH]; simpl; [reflexivity|]. now destruct (f x). Qed.

Lemma for_return_map {A B C} (g : A -> B) (l : list A) (f : B -> option C) :
  for_return (map g l) f = for_return l (fun x => f (g x)).
Proof. induction l as [|x l IH]; simpl; [reflexivity|]. now destruct (f (g x)). Qed.

Lemma for_return_flat_map {A B C} (g : A -> list B) (l : list A) (f : B -> option C) :
  for_return (flat_map g l) f = for_return l (fun x => for_return (g x) f).
Proof.
  induction l as [|x l IH]; simpl; [reflexivity|].
  rewrite for_return_app, IH. reflexivity.
Qed.

Lemma for_return_ext {A B} (l : list A) (f g : A -> option B) :
  (forall x, In x l -> f x = g x) -> for_return l f = for_return l g.
Proof.
  induction l as [|x l IH]; simpl; intros H; [reflexivity|].
  rewrite (H x) by now left. destruct (g x); [reflexivity|]. apply IH. auto.
Qed.

Lemma for_return_None {A B} (l : list A) (f : A -> option B) :
  for_return l f = None <-> forall x, In x l -> f x = None.
Proof.
  induction l as [|x l IH]; simpl; [tauto|].
  destruct (f x) eqn:E.
  - split; [discriminate|]. intros H. specialize (H x (or_introl eq_refl)). congruence.
  - rewrite IH. split; [intros H y [<-|Hy]; auto|auto].
Qed.

(** [for_return] yields the result of the first element whose body
    returns. *)
Lemma for_return_Some {A B} (l : list A) (f : A -> option B) (r : B) :
  for_return l f = Some r
  <-> exists l1 x l2, l = l1 ++ x :: l2 /\ (forall y, In y l1 -> f y = None)
                      /\ f x = Some r.
Proof.
  induction l as [|x l IH]; simpl.
  - split; [discriminate|]. intros (l1 & y & l2 & H & _). now destruct l1.
  - destruct (f x) eqn:E.
    + split.
      * intros [= ->]. exists [], x, l. simpl. tauto.
      * intros ([|z l1] & y & l2 & H & Hn & Hy); simpl in H; injection H as -> ->.
        -- congruence.
        -- rewrite (Hn z) in E by now left. discriminate.
    + rewrite IH. split.
      * intros (l1 & y & l2 & -> & Hn & Hy). exists (x :: l1), y, l2.
        split; [reflexivity|]. split; [|assumption]. intros z [<-|Hz]; auto.
      * intros ([|z l1] & y & l2 & H & Hn & Hy); simpl in H; injection H as -> ->.
        -- congruence.
        -- exists l1, y, l2. split; [reflexivity|]. split; [|assumption].
           intros w Hw. apply Hn. now right.
Qed.

Lemma range_shift lo : range lo (lo + WIN_LENGTH) = map (fun i => lo + i) (range 0 WIN_LENGTH).
Proof.
  unfold range. replace (lo + WIN_LENGTH - lo) with 4 by (unfold WIN_LENGTH; lia).
  reflexivity.
Qed.

Lemma row_window_values b row col : row_window b row col = window_values b (row, col, Horizontal).
Proof.
  unfold row_window, window_values. rewrite range_shift, map_map. cbn [step].
  apply map_ext. intros i. f_equal; lia.
Qed.

Lemma col_window_values b row col : col_window b row col = window_values b (row, col, Vertical).
Proof.
  unfold col_window, window_values. rewrite range_shift, map_map. cbn [step].
  apply map_ext. intros i. f_equal; lia.
Qed.

Lemma pos_window_values b row col : pos_window b row col = window_values b (row, col, Falling).
Proof.
  unfold pos_window, window_values. cbn [step]. apply map_ext. intros i. f_equal; lia.
Qed.

Lemma neg_window_values b row col : neg_window b row col = window_values b (row, col, Rising).
Proof.
  unfold neg_window, window_values. cbn [step]. apply map_ext. intros i. f_equal; lia.
Qed.

Lemma scan_row_major b rows cols d (win : board -> Z -> Z -> list Z) :
  (forall row col, win b row col = window_values b (row, col, d)) ->
  for_return (row_major rows cols d) (fun w => window_owner (window_values b w))
  = for_return rows (fun row => for_return cols (fun col =>
      window_owner (win b row col))).
Proof.
  intros Hwin. unfold row_major. rewrite for_return_flat_map.
  apply for_return_ext. intros row _. rewrite for_return_map.
  apply for_return_ext. intros col _. now rewrite Hwin.
Qed.

(** [get_winner] is the first owner in [scan_order]. *)
Lemma get_winner_scan b : get_winner b = first_owner b scan_order.
Proof.
  unfold scan_order, get_winner, first_owner. rewrite !for_return_app.
  rewrite (scan_row_major b _ _ Horizontal row_window) by apply row_window_values.
  rewrite (scan_row_major b _ _ Vertical col_window) by apply col_window_values.
  rewrite (scan_row_major b _ _ Falling pos_window) by apply pos_window_values.
  rewrite (scan_row_major b _ _ Rising neg_window) by apply neg_window_values.
  reflexivity.
Qed.

Lemma in_row_major r c d rows cols d' :
  In (r, c, d) (row_major rows cols d') <-> d = d' /\ In r rows /\ In c cols.
Proof.
  unfold row_major. rewrite in_flat_map. split.
  - intros (row & Hrow & Hin). apply in_map_iff in Hin as (col & [= <- <- <-] & Hcol).
    auto.
  - intros (-> & Hr & Hc). exists r. split; [assumption|].
    apply in_map_iff. eauto.
Qed.

(** The scan visits exactly the windows that lie on the board. *)
Lemma scan_order_complete w : In w scan_order <-> window_in_board w.
Proof.
  destruct w as [[r c] d]. unfold scan_order, window_in_board.
  rewrite !in_app_iff, !in_row_major, !elem_range.
  unfold ROWS, COLS, WIN_LENGTH. split.
  - intros [H|[H|[H|H]]]; destruct H as (-> & Hr & Hc); simpl; intros i Hi; lia.
  - intros H. pose proof (H 0 ltac:(lia)) as H0. pose proof (H 3 ltac:(lia)) as H3.
    destruct d; simpl in H0, H3.
    + left. repeat split; lia.
    + right; left. repeat split; lia.
    + right; right; left. repeat split; lia.
    + right; right; right. repeat split; lia.
Qed.

Lemma scan_order_NoDup : NoDup scan_order.
Proof. apply (bool_decide_unpack _). vm_compute. reflexivity. Qed.

Lemma check_window_spec xs p : _check_window xs p = true <-> Forall (fun x => x = p) xs.
Proof.
  unfold _check_window. rewrite forallb_forall, Forall_forall.
  split; intros H x Hx.
  - apply Z.eqb_eq, H. now apply list_elem_of_In.
  - apply Z.eqb_eq, H. now apply list_elem_of_In.
Qed.

Lemma window_values_cons b w : exists x xs, window_values b w = x :: xs.
Proof. destruct w as [[r c] d]. unfold window_values. destruct (step d). simpl. eauto. Qed.

Lemma window_owner_spec b w p :
  window_owner (window_values b w) = Some p <-> filled_by b w p.
Proof.
  unfold filled_by, valid_player, window_owner. simpl.
  destruct (window_values_cons b w) as (x & xs & ->).
  destruct (_check_window (x :: xs) PLAYER_1) eqn:E1;
    [|destruct (_check_window (x :: xs) PLAYER_2) eqn:E2].
  - apply check_window_spec in E1. split.
    + intros [= <-]. auto.
    + intros [[-> | ->] H]; [reflexivity|].
      apply Forall_cons in E1 as [-> _]. apply Forall_cons in H as [H _]. discriminate.
  - apply check_window_spec in E2. split.
    + intros [= <-]. auto.
    + intros [[-> | ->] H]; [|reflexivity].
      apply check_window_spec in H. congruence.
  - split; [discriminate|].
    intros [[-> | ->] H]; apply check_window_spec in H; congruence.
Qed.

Lemma window_owner_None b w :
  window_owner (window_values b w) = None <-> forall p, ~ filled_by b w p.
Proof.
  split.
  - intros H p Hp. apply window_owner_spec in Hp. congruence.
  - intros H. destruct (window_owner (window_values b w)) as [p|] eqn:E; [|reflexivity].
    apply window_owner_spec in E. now apply H in E.
Qed.

Lemma wf_two_columns : wf_board two_columns.
Proof. split; [reflexivity|]. repeat constructor. Qed.

(** C5, as stated: scanning the vertical windows column by column does not
    give the winner [get_winner] returns. *)
Lemma get_winner_not_column_major :
  get_winner two_columns = Some PLAYER_1
  /\ first_owner two_columns spec_scan_order = Some PLAYER_2
  /\ get_winner two_columns <> first_owner two_columns spec_scan_order.
Proof. repeat split. discriminate. Qed.

Lemma get_winner_Some b p :
  get_winner b = Some p <->
  exists before w after,
    scan_order = before ++ w :: after
    /\ (forall w' q, In w' before -> ~ filled_by b w' q)
    /\ filled_by b w p.
Proof.
  rewrite get_winner_scan. unfold first_owner. rewrite for_return_Some. split.
  - intros (l1 & w & l2 & Hs & Hn & Hw). exists l1, w, l2.
    split; [assumption|]. split; [|now apply window_owner_spec].
    intros w' q Hin. apply window_owner_None. now apply Hn.
  - intros (l1 & w & l2 & Hs & Hn & Hw). exists l1, w, l2.
    split; [assumption|]. split; [|now apply window_owner_spec].
    intros w' Hin. apply window_owner_None. intros q. now apply Hn.
Qed.

Lemma get_winner_None b :
  get_winner b = None <-> forall w p, window_in_board w -> ~ filled_by b w p.
Proof.
  rewrite get_winner_scan. unfold first_owner. rewrite for_return_None. split.
  - intros H w p Hw. apply scan_order_complete in Hw.
    apply window_owner_None. now apply H.
  - intros H w Hw. apply window_owner_None. intros p. apply H.
    now apply scan_order_complete.
Qed.

(** C5, amended: [get_winner] examines every window of four cells that lies
    on the board, in the order horizontal, vertical, falling diagonal,
    rising diagonal, each family row by row from the top and left to right
    within a row of anchors, and returns the owner of the first window one
    player fills; it returns [None] exactly when no player fills a window. *)
Theorem get_winner_first_window (b : board) :
  get_winner b = first_owner b scan_order
  /\ (forall w, In w scan_order <-> window_in_board w)
  /\ (forall p, get_winner b = Some p <->
        exists before w after,
          scan_order = before ++ w :: after
          /\ (forall w' q, In w' before -> ~ filled_by b w' q)
          /\ filled_by b w p)
  /\ (get_winner b = None <->
        forall w p, window_in_board w -> ~ filled_by b w p).
Proof.
  split; [apply get_winner_scan|]. split; [apply scan_order_complete|].
  split; [intros p; apply get_winner_Some|apply get_winner_None].
Qed.

(** ** utility and terminal values *)

Lemma not_terminal_no_winner b : is_terminal b = false -> get_winner b = None.
Proof. unfold is_terminal. destruct (get_winner b); [discriminate|reflexivity]. Qed.

Lemma not_terminal_legal b : is_terminal b = false -> get_legal_moves b <> [].
Proof.
  unfold is_terminal. intros H Hn. rewrite Hn in H. simpl in H.
  now rewrite orb_true_r in H.
Qed.

(** The winner is always one of the two players. *)
Lemma get_winner_player b p : get_winner b = Some p -> valid_player p.
Proof.
  intros H. apply get_winner_Some in H. destruct H as (? & w & ? & _ & _ & [Hp _]).
  exact Hp.
Qed.

(** C9: [utility] is defined on every board, terminal or not: it is 1 when
    the winner is the given player, -1 when there is a winner who is not
    that player (who is then the opponent), and 0 when there is no winner,
    in particular on every board that is not terminal. *)
Theorem utility_total (b : board) (ai_player : Z) :
  utility b ai_player
  = match get_winner b with
    | Some winner => if winner =? ai_player then 1 else -1
    | None => 0
    end
  /\ (forall winner, get_winner b = Some winner -> valid_player ai_player ->
        winner <> ai_player -> winner = get_opponent ai_player)
  /\ (is_terminal b = false -> utility b ai_player = 0)
  /\ is_terminal create_board = false.
Proof.
  split; [|split; [|split]].
  - unfold utility. destruct (get_winner b) as [w|]; simpl; [|reflexivity].
    now destruct (w =? ai_player).
  - intros w Hw Hai Hne. apply get_winner_player in Hw.
    destruct Hw as [-> | ->], Hai as [-> | ->]; try reflexivity; contradiction.
  - intros H. unfold utility. now rewrite (not_terminal_no_winner b H).
  - reflexivity.
Qed.

(** C2: on a terminal board [minimax] returns, for the remaining depth
    [depth], 1000 + depth when the AI player has won, -1000 - depth when
    the other player has won, and 0 for a draw; so a win with more depth
    remaining (a faster win) scores higher, and a loss with less depth
    remaining (a later loss) scores higher. *)
Theorem minimax_terminal (fuel : nat) (b : board) (depth : Z) (maximizing : bool)
    (ai_player : Z) (alpha beta : value) (stats : nat) :
  is_terminal b = true ->
  exists v,
    minimax (S fuel) b depth maximizing ai_player alpha beta stats
    = Ret (Fin v, (stats + 1)%nat)
    /\ (get_winner b = Some ai_player -> v = 1000 + depth)
    /\ (forall winner, get_winner b = Some winner -> winner <> ai_player ->
          v = -1000 - depth)
    /\ (get_winner b = None -> v = 0)
    /\ (forall depth' v',
          minimax (S fuel) b depth' maximizing ai_player alpha beta stats
          = Ret (Fin v', (stats + 1)%nat) ->
          depth < depth' ->
          (get_winner b = Some ai_player -> v < v')
          /\ (forall winner, get_winner b = Some winner -> winner <> ai_player ->
                v' < v)).
Proof.
  intros Ht. simpl. rewrite Ht. unfold terminal_value.
  destruct (get_winner b) as [w|] eqn:Ew; simpl.
  - destruct (Z.eqb_spec w ai_player) as [->|Hne].
    + eexists; split; [reflexivity|].
      split; [reflexivity|]. split; [congruence|]. split; [discriminate|].
      intros depth' v' [= <-] Hd. split; [lia|congruence].
    + eexists; split; [reflexivity|].
      split; [congruence|]. split; [reflexivity|]. split; [discriminate|].
      intros depth' v' [= <-] Hd. split; [congruence|]. intros _ _ _. lia.
  - eexists; split; [reflexivity|].
    split; [discriminate|]. split; [discriminate|]. split; [reflexivity|].
    intros depth' v' _ _. split; [discriminate|]. intros; discriminate.
Qed.

Lemma minimax_terminal_witness :
  is_terminal two_columns = true
  /\ minimax 1 two_columns 5 false PLAYER_1 NegInf PosInf 0 = Ret (Fin 1005, 1%nat).
Proof.
  split; [reflexivity|].
  destruct (minimax_terminal 0 two_columns 5 false PLAYER_1 NegInf PosInf 0 eq_refl)
    as (v & Hv & Hwin & _).
  rewrite Hv, (Hwin eq_refl). reflexivity.
Defined.

(** ** The heuristic evaluator against the specification's formula *)

Lemma in_boardb_spec w : in_boardb w = true <-> window_in_board w.
Proof.
  destruct w as [[r c] d]. unfold in_boardb, window_in_board.
  rewrite forallb_forall. split.
  - intros H i Hi. specialize (H i (proj2 (elem_range _ _ _) Hi)).
    rewrite !andb_true_iff, !Z.leb_le, !Z.ltb_lt in H. lia.
  - intros H i Hi%elem_range. specialize (H i Hi).
    rewrite !andb_true_iff, !Z.leb_le, !Z.ltb_lt. lia.
Qed.

Lemma all_windows_complete w : In w all_windows <-> window_in_board w.
Proof.
  unfold all_windows. rewrite filter_In, in_boardb_spec. split; [tauto|].
  intros H. split; [|assumption]. destruct w as [[r c] d].
  pose proof (H 0 ltac:(unfold WIN_LENGTH; lia)) as H0.
  rewrite !Z.mul_0_l, !Z.add_0_r in H0.
  apply in_flat_map. exists d. split; [destruct d; simpl; tauto|].
  apply in_row_major. rewrite !elem_range. tauto.
Qed.

Lemma all_windows_NoDup : NoDup all_windows.
Proof. apply (bool_decide_unpack _). vm_compute. reflexivity. Qed.

Lemma scan_order_all_windows : Permutation scan_order all_windows.
Proof.
  apply NoDup_Permutation.
  - apply scan_order_NoDup.
  - apply all_windows_NoDup.
  - intros w. rewrite !list_elem_of_In, scan_order_complete, all_windows_complete.
    reflexivity.
Qed.

Lemma sum_list_app l1 l2 : sum_list (l1 ++ l2) = sum_list l1 + sum_list l2.
Proof. induction l1 as [|x l1 IH]; simpl; [reflexivity|]. rewrite IH. lia. Qed.

Lemma sum_list_perm l1 l2 : Permutation l1 l2 -> sum_list l1 = sum_list l2.
Proof. induction 1; simpl; lia. Qed.

Lemma fold_add_sum (cols : list Z) (f : Z -> Z) (s : Z) :
  fold_left (fun score col => score + f col) cols s = s + sum_list (map f cols).
Proof.
  revert s. induction cols as [|c cols IH]; intros s; simpl; [lia|].
  rewrite IH. lia.
Qed.

Lemma for_for_add_sum rows cols (f : Z -> Z -> Z) d (g : window -> Z) s :
  (forall row col, f row col = g (row, col, d)) ->
  for_for_add rows cols f s = s + sum_list (map g (row_major rows cols d)).
Proof.
  intros Hfg. unfold for_for_add, row_major. revert s.
  induction rows as [|r rows IH]; intros s; simpl; [lia|].
  rewrite IH, fold_add_sum, map_app, sum_list_app, map_map.
  rewrite (map_ext (fun col => f r col) (fun col => g (r, col, d))) by (intros; apply Hfg).
  now rewrite Z.add_assoc.
Qed.

Lemma heuristic_evaluate_scan b player :
  heuristic_evaluate b player
  = count_eq (map (fun row => cell b row (COLS / 2)) (range 0 ROWS)) player * 6
    + sum_list (map (code_window_score b player) scan_order).
Proof.
  unfold heuristic_evaluate, scan_order. cbv zeta.
  rewrite (for_for_add_sum _ _ _ Rising (code_window_score b player))
    by (intros; unfold code_window_score; now rewrite neg_window_values).
  rewrite (for_for_add_sum _ _ _ Falling (code_window_score b player))
    by (intros; unfold code_window_score; now rewrite pos_window_values).
  rewrite (for_for_add_sum _ _ _ Vertical (code_window_score b player))
    by (intros; unfold code_window_score; now rewrite col_window_values).
  rewrite (for_for_add_sum _ _ _ Horizontal (code_window_score b player))
    by (intros; unfold code_window_score; now rewrite row_window_values).
  rewrite !map_app, !sum_list_app. lia.
Qed.

Lemma count_eq_nonneg xs v : 0 <= count_eq xs v.
Proof. unfold count_eq. lia. Qed.

(** Three different values cannot be counted more often than there are
    cells. *)
Lemma count_eq_disjoint xs x y z :
  x <> y -> x <> z -> y <> z ->
  count_eq xs x + count_eq xs y + count_eq xs z <= Z.of_nat (length xs).
Proof.
  intros Hxy Hxz Hyz. unfold count_eq.
  induction xs as [|a xs IH]; simpl; [lia|].
  destruct (Z.eqb_spec a x), (Z.eqb_spec a y), (Z.eqb_spec a z); simpl; lia.
Qed.

Lemma length_window_values b w : length (window_values b w) = 4%nat.
Proof. destruct w as [[r c] d]. unfold window_values. now destruct (step d). Qed.

Lemma valid_player_distinct player :
  valid_player player ->
  player <> get_opponent player /\ player <> EMPTY /\ get_opponent player <> EMPTY.
Proof. intros [-> | ->]; repeat split; discriminate. Qed.

Lemma window_counts b w player :
  valid_player player ->
  count_eq (window_values b w) player + count_eq (window_values b w) (get_opponent player)
  + count_eq (window_values b w) EMPTY <= 4.
Proof.
  intros (H1 & H2 & H3)%valid_player_distinct.
  pose proof (count_eq_disjoint (window_values b w) _ _ _ H1 H2 H3) as H.
  rewrite length_window_values in H. lia.
Qed.

Lemma score_window_spec b w player :
  valid_player player ->
  code_window_score b player w
  = spec_window_score (count_eq (window_values b w) player)
                      (count_eq (window_values b w) (get_opponent player))
                      (count_eq (window_values b w) EMPTY).
Proof.
  intros Hp. pose proof (window_counts b w player Hp) as Hsum.
  pose proof (count_eq_nonneg (window_values b w) player).
  pose proof (count_eq_nonneg (window_values b w) (get_opponent player)).
  pose proof (count_eq_nonneg (window_values b w) EMPTY).
  unfold code_window_score, _score_window, spec_window_score.
  cbv zeta. zbool; lia.
Qed.

(** C3: for either player, the heuristic evaluation is 6 for each of the
    player's pieces in column COLS / 2 (nothing for the opponent's pieces
    there) plus, summed over every window of four cells on the board in the
    four directions, 100 for four own cells, 10 for three own and one
    empty, 5 for two own and two empty, -8 for three opposing and one
    empty, -4 for two opposing and two empty, and 0 otherwise; a window
    that holds pieces of both players scores 0. *)
Theorem heuristic_evaluate_spec (b : board) (player : Z) :
  valid_player player ->
  heuristic_evaluate b player = spec_evaluate b player
  /\ (forall w, In w all_windows <-> window_in_board w)
  /\ NoDup all_windows
  /\ (forall w,
        0 < count_eq (window_values b w) player ->
        0 < count_eq (window_values b w) (get_opponent player) ->
        _score_window (window_values b w) player (get_opponent player) = 0).
Proof.
  intros Hp. split; [|split; [|split]].
  - rewrite heuristic_evaluate_scan. unfold spec_evaluate. cbv zeta.
    rewrite Z.mul_comm. f_equal.
    transitivity (sum_list (map (code_window_score b player) all_windows)).
    + apply sum_list_perm, Permutation_map, scan_order_all_windows.
    + f_equal. apply map_ext. intros w. now apply score_window_spec.
  - apply all_windows_complete.
  - apply all_windows_NoDup.
  - intros w Ha Ho. pose proof (window_counts b w player Hp) as Hsum.
    pose proof (count_eq_nonneg (window_values b w) EMPTY).
    fold (code_window_score b player w). rewrite score_window_spec by assumption.
    unfold spec_window_score. zbool; lia.
Qed.

Lemma heuristic_evaluate_spec_witness :
  valid_player PLAYER_1
  /\ heuristic_evaluate two_columns PLAYER_1 = spec_evaluate two_columns PLAYER_1.
Proof.
  split; [left; reflexivity|].
  exact (proj1 (heuristic_evaluate_spec two_columns PLAYER_1 (or_introl eq_refl))).
Defined.

(** ** Move ordering *)

Lemma insert_by_key_perm key x l : Permutation (insert_by_key key x l) (x :: l).
Proof.
  induction l as [|y l IH]; simpl; [reflexivity|].
  destruct (key x <=? key y); [reflexivity|].
  rewrite IH. apply perm_swap.
Qed.

Lemma sorted_perm xs key : Permutation (sorted xs key) xs.
Proof.
  induction xs as [|x xs IH]; simpl; [reflexivity|].
  rewrite insert_by_key_perm. now apply perm_skip.
Qed.

Lemma order_moves_perm moves : Permutation (_order_moves moves) moves.
Proof. apply sorted_perm. Qed.

Lemma order_moves_In moves col : In col (_order_moves moves) <-> In col moves.
Proof.
  split; apply Permutation_in; [|symmetry]; apply order_moves_perm.
Qed.

Lemma order_moves_nil moves : _order_moves moves = [] -> moves = [].
Proof.
  intros H. apply Permutation_nil. rewrite <- H. apply order_moves_perm.
Qed.

Lemma insert_by_key_sorted key x l :
  StronglySorted (fun a c => key a <= key c) l ->
  StronglySorted (fun a c => key a <= key c) (insert_by_key key x l).
Proof.
  induction 1 as [|y l Hs IH Hy]; simpl.
  - repeat constructor.
  - destruct (Z.leb_spec (key x) (key y)).
    + constructor; [now constructor|]. constructor; [assumption|].
      rewrite Forall_forall in Hy |- *. intros z Hz. specialize (Hy z Hz). lia.
    + constructor; [assumption|].
      rewrite Forall_forall in Hy |- *. intros z Hz.
      apply list_elem_of_In in Hz.
      apply (Permutation_in _ (insert_by_key_perm key x l)) in Hz as [<-|Hz].
      * lia.
      * apply Hy. now apply list_elem_of_In.
Qed.

Lemma order_moves_sorted moves :
  StronglySorted (fun a c => center_distance a <= center_distance c) (_order_moves moves).
Proof.
  unfold _order_moves, sorted. cbv zeta.
  induction moves as [|x xs IH]; simpl; [constructor|].
  now apply (insert_by_key_sorted (fun col => Z.abs (col - COLS / 2))).
Qed.

(** ** Order on search values *)

Lemma vlt_is_true a b : vlt a b = true <-> vless a b.
Proof. destruct a, b; simpl; rewrite ?Z.ltb_lt; intuition discriminate. Qed.

Lemma vlt_is_false a b : vlt a b = false <-> ~ vless a b.
Proof. destruct a, b; simpl; rewrite ?Z.ltb_ge; intuition (try discriminate; lia). Qed.

Lemma value_eq_same (a b : value) : a = b <-> vsame a b.
Proof. destruct a, b; simpl; split; intros H; try discriminate; try tauto; congruence. Qed.

Lemma vmax_eq a b : vmax a b = vmaxZ a b.
Proof.
  destruct a, b; try reflexivity. unfold vmax. simpl.
  destruct (Z.ltb_spec z z0); f_equal; lia.
Qed.

Lemma vmin_eq a b : vmin a b = vminZ a b.
Proof.
  destruct a, b; try reflexivity. unfold vmin. simpl.
  destruct (Z.ltb_spec z0 z); f_equal; lia.
Qed.

(** Order facts on values: case analysis on the infinities, then linear
    arithmetic with [Z.max] and [Z.min]. *)
Ltac vsolve :=
  intros; unfold vge in *;
  rewrite ?negb_true_iff, ?negb_false_iff in *;
  rewrite ?vmax_eq, ?vmin_eq in *;
  rewrite ?vlt_is_true, ?vlt_is_false, ?value_eq_same in *;
  repeat match goal with v : value |- _ => destruct v end;
  cbn [vless vsame vmaxZ vminZ] in *; lia.

(** ** Termination *)

Lemma max_loop_returns rec b player cols :
  (forall col, In col cols -> exists child,
      make_move b col player = Ret child /\ returns_finite rec child) ->
  forall max_eval alpha beta stats,
    max_eval <> PosInf -> (max_eval = NegInf -> cols <> []) ->
    exists v stats',
      max_loop rec b player cols max_eval alpha beta stats = Ret (Fin v, stats')
      /\ (stats <= stats')%nat.
Proof.
  induction cols as [|col rest IH]; intros Hrec max_eval alpha beta stats Hm Hne.
  - simpl. destruct max_eval as [|x|]; [now destruct Hne|eauto|congruence].
  - destruct (Hrec col (or_introl eq_refl)) as (child & Hmv & Hret).
    destruct (Hret alpha beta stats) as (v & s1 & Hv & Hs1).
    simpl. rewrite Hmv. simpl. rewrite Hv. simpl.
    assert (Hfin : exists x, vmax max_eval (Fin v) = Fin x).
    { destruct max_eval as [|x|]; try congruence; simpl; [eauto|].
      unfold vmax; simpl. destruct (x <? v); eauto. }
    destruct Hfin as (x & Hx). rewrite Hx.
    destruct (vge (vmax alpha (Fin v)) beta).
    + exists x, s1. split; [reflexivity|lia].
    + destruct (IH (fun c Hc => Hrec c (or_intror Hc)) (Fin x) (vmax alpha (Fin v)) beta s1)
        as (v' & s' & Hl & Hs'); try discriminate.
      exists v', s'. split; [assumption|lia].
Qed.

Lemma min_loop_returns rec b player cols :
  (forall col, In col cols -> exists child,
      make_move b col player = Ret child /\ returns_finite rec child) ->
  forall min_eval alpha beta stats,
    min_eval <> NegInf -> (min_eval = PosInf -> cols <> []) ->
    exists v stats',
      min_loop rec b player cols min_eval alpha beta stats = Ret (Fin v, stats')
      /\ (stats <= stats')%nat.
Proof.
  induction cols as [|col rest IH]; intros Hrec min_eval alpha beta stats Hm Hne.
  - simpl. destruct min_eval as [|x|]; [congruence|eauto|now destruct Hne].
  - destruct (Hrec col (or_introl eq_refl)) as (child & Hmv & Hret).
    destruct (Hret alpha beta stats) as (v & s1 & Hv & Hs1).
    simpl. rewrite Hmv. simpl. rewrite Hv. simpl.
    assert (Hfin : exists x, vmin min_eval (Fin v) = Fin x).
    { destruct min_eval as [|x|]; try congruence; simpl; [|eauto].
      unfold vmin; simpl. destruct (v <? x); eauto. }
    destruct Hfin as (x & Hx). rewrite Hx.
    destruct (vge alpha (vmin beta (Fin v))).
    + exists x, s1. split; [reflexivity|lia].
    + destruct (IH (fun c Hc => Hrec c (or_intror Hc)) (Fin x) alpha (vmin beta (Fin v)) s1)
        as (v' & s' & Hl & Hs'); try discriminate.
      exists v', s'. split; [assumption|lia].
Qed.

Lemma opponent_valid player : valid_player (get_opponent player).
Proof.
  unfold get_opponent, valid_player. destruct (player =? PLAYER_2); auto.
Qed.

Lemma valid_not_empty player : valid_player player -> player <> EMPTY.
Proof. intros [-> | ->]; discriminate. Qed.

(** With more fuel than empty cells the search returns, for every depth. *)
Lemma minimax_returns fuel :
  forall b depth maximizing ai_player alpha beta stats,
    wf_board b -> valid_player ai_player -> (count_empty b < fuel)%nat ->
    exists v stats',
      minimax fuel b depth maximizing ai_player alpha beta stats = Ret (Fin v, stats')
      /\ (stats < stats')%nat.
Proof.
  induction fuel as [|fuel IH]; intros b depth maximizing ai alpha beta stats Hwf Hai Hfuel;
    [lia|].
  simpl. destruct (is_terminal b) eqn:Ht.
  { unfold terminal_value.
    destruct (winner_is _ _); [|destruct (is_not_None _)]; eexists _, _;
      (split; [reflexivity|lia]). }
  destruct (depth =? 0); [eexists _, _; split; [reflexivity|lia]|].
  assert (Hne : _order_moves (get_legal_moves b) <> []).
  { intros H%order_moves_nil. now apply not_terminal_legal in Ht. }
  assert (Hchild : forall player mx, valid_player player ->
    forall col, In col (_order_moves (get_legal_moves b)) -> exists child,
      make_move b col player = Ret child
      /\ returns_finite (fun child alpha beta stats =>
           minimax fuel child (depth - 1) mx ai alpha beta stats) child).
  { intros player mx Hp col Hcol. apply (proj1 (order_moves_In _ _)) in Hcol.
    destruct (make_move_legal b col player Hwf Hcol) as (child & Hmv & Hwfc & Hcnt).
    exists child. split; [assumption|]. intros a' b' s'.
    apply IH; try assumption. specialize (Hcnt (valid_not_empty _ Hp)). lia. }
  destruct maximizing.
  - destruct (max_loop_returns _ b ai _ (Hchild ai false Hai) NegInf alpha beta (stats + 1)%nat)
      as (v & s' & Hl & Hs); [discriminate|auto|].
    exists v, s'. split; [assumption|lia].
  - destruct (min_loop_returns _ b (get_opponent ai) _
                (Hchild (get_opponent ai) true (opponent_valid ai))
                PosInf alpha beta (stats + 1)%nat)
      as (v & s' & Hl & Hs); [discriminate|auto|].
    exists v, s'. split; [assumption|lia].
Qed.

(** ** Pruned against unpruned search *)

Lemma bracket_refl alpha beta r : bracket alpha beta r r.
Proof. unfold bracket. vsolve. Qed.

Lemma bracket_full r f : bracket NegInf PosInf r f -> r = f.
Proof. unfold bracket. vsolve. Qed.

Lemma vmax_ge_l f a c : vlt f (vmax a c) = false -> vlt f a = false.
Proof. vsolve. Qed.

Lemma vmax_ge_r f a c : vlt f (vmax a c) = false -> vlt f c = false.
Proof. vsolve. Qed.

Lemma vmin_le_l f a c : vlt (vmin a c) f = false -> vlt a f = false.
Proof. vsolve. Qed.

Lemma vmin_le_r f a c : vlt (vmin a c) f = false -> vlt c f = false.
Proof. vsolve. Qed.

Lemma max_cutoff alpha0 max_eval beta r1 f1 f :
  vlt (vmax alpha0 max_eval) beta = true ->
  bracket (vmax alpha0 max_eval) beta (Fin r1) (Fin f1) ->
  vge (vmax (vmax alpha0 max_eval) (Fin r1)) beta = true ->
  vlt f (Fin f1) = false ->
  bracket alpha0 beta (vmax max_eval (Fin r1)) f.
Proof. unfold bracket. vsolve. Qed.

Lemma max_continue alpha0 max_eval beta full_eval r1 f1 :
  vlt (vmax alpha0 max_eval) beta = true ->
  bracket alpha0 beta max_eval full_eval ->
  bracket (vmax alpha0 max_eval) beta (Fin r1) (Fin f1) ->
  vge (vmax (vmax alpha0 max_eval) (Fin r1)) beta = false ->
  vmax (vmax alpha0 max_eval) (Fin r1) = vmax alpha0 (vmax max_eval (Fin r1))
  /\ vlt (vmax alpha0 (vmax max_eval (Fin r1))) beta = true
  /\ bracket alpha0 beta (vmax max_eval (Fin r1)) (vmax full_eval (Fin f1)).
Proof. unfold bracket. vsolve. Qed.

Lemma min_cutoff alpha beta0 min_eval r1 f1 f :
  vlt alpha (vmin beta0 min_eval) = true ->
  bracket alpha (vmin beta0 min_eval) (Fin r1) (Fin f1) ->
  vge alpha (vmin (vmin beta0 min_eval) (Fin r1)) = true ->
  vlt (Fin f1) f = false ->
  bracket alpha beta0 (vmin min_eval (Fin r1)) f.
Proof. unfold bracket. vsolve. Qed.

Lemma min_continue alpha beta0 min_eval full_eval r1 f1 :
  vlt alpha (vmin beta0 min_eval) = true ->
  bracket alpha beta0 min_eval full_eval ->
  bracket alpha (vmin beta0 min_eval) (Fin r1) (Fin f1) ->
  vge alpha (vmin (vmin beta0 min_eval) (Fin r1)) = false ->
  vmin (vmin beta0 min_eval) (Fin r1) = vmin beta0 (vmin min_eval (Fin r1))
  /\ vlt alpha (vmin beta0 (vmin min_eval (Fin r1))) = true
  /\ bracket alpha beta0 (vmin min_eval (Fin r1)) (vmin full_eval (Fin f1)).
Proof. unfold bracket. vsolve. Qed.

(** *** The unpruned search returns *)

Lemma full_max_loop_returns rec b player cols :
  (forall col, In col cols -> exists child,
      make_move b col player = Ret child /\ returns_finite_full rec child) ->
  forall max_eval stats,
    max_eval <> PosInf -> (max_eval = NegInf -> cols <> []) ->
    exists v stats',
      Unpruned.max_loop rec b player cols max_eval stats = Ret (Fin v, stats')
      /\ (stats <= stats')%nat.
Proof.
  induction cols as [|col rest IH]; intros Hrec max_eval stats Hm Hne.
  - simpl. destruct max_eval as [|x|]; [now destruct Hne|eauto|congruence].
  - destruct (Hrec col (or_introl eq_refl)) as (child & Hmv & Hret).
    destruct (Hret stats) as (v & s1 & Hv & Hs1).
    simpl. rewrite Hmv. simpl. rewrite Hv. simpl.
    destruct (IH (fun c Hc => Hrec c (or_intror Hc)) (vmax max_eval (Fin v)) s1)
      as (v' & s' & Hl & Hs').
    + rewrite vmax_eq. destruct max_eval; simpl; congruence.
    + rewrite vmax_eq. destruct max_eval; simpl; congruence.
    + exists v', s'. split; [assumption|lia].
Qed.

Lemma full_min_loop_returns rec b player cols :
  (forall col, In col cols -> exists child,
      make_move b col player = Ret child /\ returns_finite_full rec child) ->
  forall min_eval stats,
    min_eval <> NegInf -> (min_eval = PosInf -> cols <> []) ->
    exists v stats',
      Unpruned.min_loop rec b player cols min_eval stats = Ret (Fin v, stats')
      /\ (stats <= stats')%nat.
Proof.
  induction cols as [|col rest IH]; intros Hrec min_eval stats Hm Hne.
  - simpl. destruct min_eval as [|x|]; [congruence|eauto|now destruct Hne].
  - destruct (Hrec col (or_introl eq_refl)) as (child & Hmv & Hret).
    destruct (Hret stats) as (v & s1 & Hv & Hs1).
    simpl. rewrite Hmv. simpl. rewrite Hv. simpl.
    destruct (IH (fun c Hc => Hrec c (or_intror Hc)) (vmin min_eval (Fin v)) s1)
      as (v' & s' & Hl & Hs').
    + rewrite vmin_eq. destruct min_eval; simpl; congruence.
    + rewrite vmin_eq. destruct min_eval; simpl; congruence.
    + exists v', s'. split; [assumption|lia].
Qed.

Lemma full_minimax_returns fuel :
  forall b depth maximizing ai_player stats,
    wf_board b -> valid_player ai_player -> (count_empty b < fuel)%nat ->
    exists v stats',
      Unpruned.minimax fuel b depth maximizing ai_player stats = Ret (Fin v, stats')
      /\ (stats < stats')%nat.
Proof.
  induction fuel as [|fuel IH]; intros b depth maximizing ai stats Hwf Hai Hfuel; [lia|].
  simpl. destruct (is_terminal b) eqn:Ht.
  { unfold terminal_value.
    destruct (winner_is _ _); [|destruct (is_not_None _)]; eexists _, _;
      (split; [reflexivity|lia]). }
  destruct (depth =? 0); [eexists _, _; split; [reflexivity|lia]|].
  assert (Hne : _order_moves (get_legal_moves b) <> []).
  { intros H%order_moves_nil. now apply not_terminal_legal in Ht. }
  assert (Hchild : forall player mx, valid_player player ->
    forall col, In col (_order_moves (get_legal_moves b)) -> exists child,
      make_move b col player = Ret child
      /\ returns_finite_full (fun child stats =>
           Unpruned.minimax fuel child (depth - 1) mx ai stats) child).
  { intros player mx Hp col Hcol. apply (proj1 (order_moves_In _ _)) in Hcol.
    destruct (make_move_legal b col player Hwf Hcol) as (child & Hmv & Hwfc & Hcnt).
    exists child. split; [assumption|]. intros s'.
    apply IH; try assumption. specialize (Hcnt (valid_not_empty _ Hp)). lia. }
  destruct maximizing.
  - destruct (full_max_loop_returns _ b ai _ (Hchild ai false Hai) NegInf (stats + 1)%nat)
      as (v & s' & Hl & Hs); [discriminate|auto|].
    exists v, s'. split; [assumption|lia].
  - destruct (full_min_loop_returns _ b (get_opponent ai) _
                (Hchild (get_opponent ai) true (opponent_valid ai))
                PosInf (stats + 1)%nat)
      as (v & s' & Hl & Hs); [discriminate|auto|].
    exists v, s'. split; [assumption|lia].
Qed.

(** The unpruned loops never lose what they have accumulated. *)
Lemma full_max_loop_ge rec b player cols :
  (forall col, In col cols -> exists child,
      make_move b col player = Ret child /\ returns_finite_full rec child) ->
  forall max_eval stats f stats',
    Unpruned.max_loop rec b player cols max_eval stats = Ret (f, stats') ->
    vlt f max_eval = false /\ (stats <= stats')%nat.
Proof.
  induction cols as [|col rest IH]; intros Hrec max_eval stats f stats'; simpl.
  - intros [= <- <-]. split; [vsolve|lia].
  - destruct (Hrec col (or_introl eq_refl)) as (child & Hmv & Hret).
    destruct (Hret stats) as (v & s1 & Hv & Hs1).
    rewrite Hmv. simpl. rewrite Hv. simpl. intros Hl.
    apply IH in Hl as [Hf Hs]; [|intros c Hc; apply Hrec; now right].
    split; [|lia]. now apply vmax_ge_l in Hf.
Qed.

Lemma full_min_loop_le rec b player cols :
  (forall col, In col cols -> exists child,
      make_move b col player = Ret child /\ returns_finite_full rec child) ->
  forall min_eval stats f stats',
    Unpruned.min_loop rec b player cols min_eval stats = Ret (f, stats') ->
    vlt min_eval f = false /\ (stats <= stats')%nat.
Proof.
  induction cols as [|col rest IH]; intros Hrec min_eval stats f stats'; simpl.
  - intros [= <- <-]. split; [vsolve|lia].
  - destruct (Hrec col (or_introl eq_refl)) as (child & Hmv & Hret).
    destruct (Hret stats) as (v & s1 & Hv & Hs1).
    rewrite Hmv. simpl. rewrite Hv. simpl. intros Hl.
    apply IH in Hl as [Hf Hs]; [|intros c Hc; apply Hrec; now right].
    split; [|lia]. now apply vmin_le_l in Hf.
Qed.

(** *** The pruned loops against the unpruned ones *)

Lemma max_loop_bracket rec recF b player cols :
  (forall col, In col cols -> exists child,
      make_move b col player = Ret child /\ sound_at rec recF child) ->
  forall max_eval full_eval alpha0 beta s sF r s' f sF',
    vlt (vmax alpha0 max_eval) beta = true ->
    bracket alpha0 beta max_eval full_eval ->
    max_loop rec b player cols max_eval (vmax alpha0 max_eval) beta s = Ret (r, s') ->
    Unpruned.max_loop recF b player cols full_eval sF = Ret (f, sF') ->
    bracket alpha0 beta r f /\ (s' + sF <= sF' + s)%nat.
Proof.
  induction cols as [|col rest IH];
    intros Hrec max_eval full_eval alpha0 beta s sF r s' f sF' Hab Hinv; simpl.
  - intros [= <- <-] [= <- <-]. split; [assumption|lia].
  - destruct (Hrec col (or_introl eq_refl)) as (child & Hmv & Hret & HretF & Hsound).
    destruct (Hret (vmax alpha0 max_eval) beta s) as (r1 & s1 & Hr1 & Hs1).
    destruct (HretF sF) as (f1 & sF1 & Hf1 & HsF1).
    destruct (Hsound _ _ _ _ _ _ _ _ Hab Hr1 Hf1) as [Hb1 Hc1].
    rewrite Hmv. simpl. rewrite Hr1, Hf1. simpl.
    destruct (vge (vmax (vmax alpha0 max_eval) (Fin r1)) beta) eqn:Hcut.
    + intros [= <- <-] HF.
      apply full_max_loop_ge in HF as [Hge HsF].
      * split; [|lia]. apply vmax_ge_r in Hge.
        eapply max_cutoff; eassumption.
      * intros c Hc. destruct (Hrec c (or_intror Hc)) as (ch & ? & ? & ? & _). eauto.
    + destruct (max_continue _ _ _ _ _ _ Hab Hinv Hb1 Hcut) as (Heq & Hab' & Hinv').
      rewrite Heq. intros HL HF.
      destruct (IH (fun c Hc => Hrec c (or_intror Hc)) _ _ _ _ _ _ _ _ _ _ Hab' Hinv' HL HF)
        as [Hb Hc].
      split; [assumption|lia].
Qed.

Lemma min_loop_bracket rec recF b player cols :
  (forall col, In col cols -> exists child,
      make_move b col player = Ret child /\ sound_at rec recF child) ->
  forall min_eval full_eval alpha beta0 s sF r s' f sF',
    vlt alpha (vmin beta0 min_eval) = true ->
    bracket alpha beta0 min_eval full_eval ->
    min_loop rec b player cols min_eval alpha (vmin beta0 min_eval) s = Ret (r, s') ->
    Unpruned.min_loop recF b player cols full_eval sF = Ret (f, sF') ->
    bracket alpha beta0 r f /\ (s' + sF <= sF' + s)%nat.
Proof.
  induction cols as [|col rest IH];
    intros Hrec min_eval full_eval alpha beta0 s sF r s' f sF' Hab Hinv; simpl.
  - intros [= <- <-] [= <- <-]. split; [assumption|lia].
  - destruct (Hrec col (or_introl eq_refl)) as (child & Hmv & Hret & HretF & Hsound).
    destruct (Hret alpha (vmin beta0 min_eval) s) as (r1 & s1 & Hr1 & Hs1).
    destruct (HretF sF) as (f1 & sF1 & Hf1 & HsF1).
    destruct (Hsound _ _ _ _ _ _ _ _ Hab Hr1 Hf1) as [Hb1 Hc1].
    rewrite Hmv. simpl. rewrite Hr1, Hf1. simpl.
    destruct (vge alpha (vmin (vmin beta0 min_eval) (Fin r1))) eqn:Hcut.
    + intros [= <- <-] HF.
      apply full_min_loop_le in HF as [Hle HsF].
      * split; [|lia]. apply vmin_le_r in Hle.
        eapply min_cutoff; eassumption.
      * intros c Hc. destruct (Hrec c (or_intror Hc)) as (ch & ? & ? & ? & _). eauto.
    + destruct (min_continue _ _ _ _ _ _ Hab Hinv Hb1 Hcut) as (Heq & Hab' & Hinv').
      rewrite Heq. intros HL HF.
      destruct (IH (fun c Hc => Hrec c (or_intror Hc)) _ _ _ _ _ _ _ _ _ _ Hab' Hinv' HL HF)
        as [Hb Hc].
      split; [assumption|lia].
Qed.

Lemma vmax_NegInf_r a : vmax a NegInf = a.
Proof. now destruct a. Qed.

Lemma vmin_PosInf_r a : vmin a PosInf = a.
Proof. now destruct a. Qed.

(** Alpha-beta search is sound: with more fuel than empty cells, on every
    board and for every window, the pruned search brackets the unpruned
    one and expands no more nodes. *)
Lemma minimax_sound fuel :
  forall b depth maximizing ai_player,
    wf_board b -> valid_player ai_player -> (count_empty b < fuel)%nat ->
    sound_at
      (fun child alpha beta stats =>
         minimax fuel child depth maximizing ai_player alpha beta stats)
      (fun child stats => Unpruned.minimax fuel child depth maximizing ai_player stats)
      b.
Proof.
  induction fuel as [|fuel IH]; intros b depth maximizing ai Hwf Hai Hfuel; [lia|].
  split; [|split].
  { intros alpha beta s. now apply minimax_returns. }
  { intros s. now apply full_minimax_returns. }
  intros alpha beta s sF r s' f sF' Hab. simpl.
  destruct (is_terminal b) eqn:Ht.
  { intros [= <- <-] [= <- <-]. split; [apply bracket_refl|lia]. }
  destruct (depth =? 0).
  { intros [= <- <-] [= <- <-]. split; [apply bracket_refl|lia]. }
  assert (Hchild : forall player mx, valid_player player ->
    forall col, In col (_order_moves (get_legal_moves b)) -> exists child,
      make_move b col player = Ret child
      /\ sound_at
           (fun child alpha beta stats =>
              minimax fuel child (depth - 1) mx ai alpha beta stats)
           (fun child stats => Unpruned.minimax fuel child (depth - 1) mx ai stats)
           child).
  { intros player mx Hp col Hcol. apply (proj1 (order_moves_In _ _)) in Hcol.
    destruct (make_move_legal b col player Hwf Hcol) as (child & Hmv & Hwfc & Hcnt).
    exists child. split; [assumption|].
    apply IH; try assumption. specialize (Hcnt (valid_not_empty _ Hp)). lia. }
  destruct maximizing.
  - intros HL HF. rewrite <- (vmax_NegInf_r alpha) in HL, Hab.
    assert (Hinv : bracket alpha beta NegInf NegInf) by (unfold bracket; vsolve).
    destruct (max_loop_bracket _ _ b ai _ (Hchild ai false Hai) NegInf NegInf alpha beta
                _ _ _ _ _ _ Hab Hinv HL HF) as [Hb Hc].
    split; [assumption|lia].
  - intros HL HF. rewrite <- (vmin_PosInf_r beta) in HL, Hab.
    assert (Hinv : bracket alpha beta PosInf PosInf) by (unfold bracket; vsolve).
    destruct (min_loop_bracket _ _ b (get_opponent ai) _
                (Hchild (get_opponent ai) true (opponent_valid ai))
                PosInf PosInf alpha beta _ _ _ _ _ _ Hab Hinv HL HF) as [Hb Hc].
    split; [assumption|lia].
Qed.

(** ** The root of the search *)

Lemma root_loop_agree search searchF b ai_player (score : Z -> Z) cols :
  (forall col, In col cols -> exists child,
      make_move b col ai_player = Ret child
      /\ forall s sF, exists s' sF',
           search child s = Ret (Fin (score col), s')
           /\ searchF child sF = Ret (Fin (score col), sF')
           /\ (s' + sF <= sF' + s)%nat) ->
  forall best_score best_col s sF, exists n nF,
    root_loop search b ai_player cols best_score best_col s
    = Ret (pick score cols best_score best_col, n)
    /\ root_loop searchF b ai_player cols best_score best_col sF
       = Ret (pick score cols best_score best_col, nF)
    /\ (n + sF <= nF + s)%nat.
Proof.
  induction cols as [|col rest IH]; intros Hrec best_score best_col s sF; simpl.
  - exists s, sF. repeat split; lia.
  - destruct (Hrec col (or_introl eq_refl)) as (child & Hmv & Hs).
    destruct (Hs s sF) as (s1 & sF1 & H1 & HF1 & Hc1).
    rewrite Hmv. simpl. rewrite H1, HF1. simpl.
    destruct (vlt best_score (Fin (score col))).
    + destruct (IH (fun c Hc => Hrec c (or_intror Hc)) (Fin (score col)) col s1 sF1)
        as (n & nF & Hn & HnF & Hc).
      exists n, nF. repeat split; try assumption. lia.
    + destruct (IH (fun c Hc => Hrec c (or_intror Hc)) best_score best_col s1 sF1)
        as (n & nF & Hn & HnF & Hc).
      exists n, nF. repeat split; try assumption. lia.
Qed.

(** The root loop keeps the first move whose score is maximal. *)
Lemma pick_first_max score cols :
  forall before c0 between,
    (forall x, In x before -> score x < score c0) ->
    (forall x, In x between -> score x <= score c0) ->
    exists before' after',
      before ++ c0 :: between ++ cols
      = before' ++ pick score cols (Fin (score c0)) c0 :: after'
      /\ (forall x, In x before' -> score x < score (pick score cols (Fin (score c0)) c0))
      /\ (forall x, In x after' -> score x <= score (pick score cols (Fin (score c0)) c0)).
Proof.
  induction cols as [|col rest IH]; intros before c0 between Hb Hm; simpl.
  - exists before, between. rewrite app_nil_r. auto.
  - destruct (Z.ltb_spec (score c0) (score col)) as [Hlt|Hge].
    + destruct (IH (before ++ c0 :: between) col []) as (b' & a' & Heq & H1 & H2).
      * intros x [Hx|[<-|Hx]]%in_app_iff; [specialize (Hb x Hx)|..|specialize (Hm x Hx)]; lia.
      * intros x [].
      * exists b', a'. split; [|auto]. rewrite <- Heq. simpl.
        now rewrite <- app_assoc.
    + destruct (IH before c0 (between ++ [col])) as (b' & a' & Heq & H1 & H2).
      * assumption.
      * intros x [Hx|[<-|[]]]%in_app_iff; [now apply Hm|lia].
      * exists b', a'. split; [|auto]. rewrite <- Heq.
        now rewrite <- app_assoc.
Qed.

Lemma vlt_NegInf_PosInf : vlt NegInf PosInf = true.
Proof. reflexivity. Qed.

(** Every root move has a child on which both searches return the root
    score, whatever the counter, the pruned one with fewer nodes. *)
Lemma root_children fuel b ai_player max_depth :
  wf_board b -> valid_player ai_player -> (count_empty b <= fuel)%nat ->
  forall col, In col (_order_moves (get_legal_moves b)) -> exists child,
    make_move b col ai_player = Ret child
    /\ forall s sF, exists s' sF',
         minimax fuel child (max_depth - 1) false ai_player NegInf PosInf s
         = Ret (Fin (root_score fuel b ai_player max_depth col), s')
         /\ Unpruned.minimax fuel child (max_depth - 1) false ai_player sF
            = Ret (Fin (root_score fuel b ai_player max_depth col), sF')
         /\ (s' + sF <= sF' + s)%nat.
Proof.
  intros Hwf Hai Hfuel col Hcol. apply (proj1 (order_moves_In _ _)) in Hcol.
  destruct (make_move_legal b col ai_player Hwf Hcol) as (child & Hmv & Hwfc & Hcnt).
  specialize (Hcnt (valid_not_empty _ Hai)).
  exists child. split; [assumption|].
  destruct (minimax_sound fuel child (max_depth - 1) false ai_player Hwfc Hai ltac:(lia))
    as (Hret & HretF & Hsound).
  unfold root_score. rewrite Hmv.
  destruct (Hret NegInf PosInf 0%nat) as (v0 & s0 & Hv0 & _). rewrite Hv0.
  intros s sF.
  destruct (Hret NegInf PosInf s) as (v & s' & Hv & _).
  destruct (HretF sF) as (f & sF' & Hf & _).
  destruct (Hsound _ _ _ _ _ _ _ _ vlt_NegInf_PosInf Hv Hf) as [Hb Hc].
  destruct (Hsound _ _ _ _ _ _ _ _ vlt_NegInf_PosInf Hv0 Hf) as [Hb0 _].
  apply bracket_full in Hb. apply bracket_full in Hb0.
  exists s', sF'. rewrite Hv, Hf. repeat split; congruence || assumption.
Qed.

(** C1: on every board and for every depth, [get_best_move] with
    alpha-beta pruning chooses the column the unpruned search chooses, and
    expands at most as many nodes; on a board with no legal move both
    raise. *)
Theorem alpha_beta_same_move (fuel : nat) (b : board) (ai_player max_depth : Z) :
  wf_board b -> valid_player ai_player -> (count_empty b <= fuel)%nat ->
  (get_legal_moves b = [] ->
   get_best_move fuel b ai_player max_depth = Raise IndexError
   /\ Unpruned.get_best_move fuel b ai_player max_depth = Raise IndexError)
  /\ (get_legal_moves b <> [] ->
      exists col stats stats_full,
        get_best_move fuel b ai_player max_depth = Ret (col, stats)
        /\ Unpruned.get_best_move fuel b ai_player max_depth = Ret (col, stats_full)
        /\ (nodes_expanded stats <= nodes_expanded stats_full)%nat).
Proof.
  intros Hwf Hai Hfuel. split.
  - intros Hnil. unfold get_best_move, Unpruned.get_best_move. rewrite Hnil.
    split; reflexivity.
  - intros Hne.
    pose proof (root_children fuel b ai_player max_depth Hwf Hai Hfuel) as Hch.
    unfold get_best_move, Unpruned.get_best_move. cbv zeta.
    destruct (_order_moves (get_legal_moves b)) as [|c rest] eqn:Hm.
    { now apply order_moves_nil in Hm. }
    destruct (root_loop_agree _ _ b ai_player _ (c :: rest) Hch NegInf c 0%nat 0%nat)
      as (n & nF & Hn & HnF & Hc).
    cbn -[root_loop]. rewrite Hn, HnF. simpl.
    eexists _, _, _. split; [reflexivity|]. split; [reflexivity|]. simpl. lia.
Qed.

Lemma alpha_beta_same_move_witness :
  exists col stats stats_full,
    get_best_move 42 create_board PLAYER_2 3 = Ret (col, stats)
    /\ Unpruned.get_best_move 42 create_board PLAYER_2 3 = Ret (col, stats_full)
    /\ (nodes_expanded stats <= nodes_expanded stats_full)%nat.
Proof.
  refine (proj2 (alpha_beta_same_move 42 create_board PLAYER_2 3
                   wf_create_board (or_intror eq_refl) _) _).
  - vm_compute. lia.
  - vm_compute. discriminate.
Defined.

(** C7: on a board with a legal move, [get_best_move] searches the child
    of every legal move, taken in center-outward order, to depth
    max_depth - 1 at a minimizing ply with bounds (-inf, +inf), and returns
    the first move in that order whose value is maximal: every move before
    it scores strictly less, every move after it scores no more. *)
Theorem get_best_move_first_max (fuel : nat) (b : board) (ai_player max_depth : Z) :
  wf_board b -> valid_player ai_player -> (count_empty b <= fuel)%nat ->
  get_legal_moves b <> [] ->
  let moves := _order_moves (get_legal_moves b) in
  let score := root_score fuel b ai_player max_depth in
  Permutation moves (get_legal_moves b)
  /\ StronglySorted (fun c c' => center_distance c <= center_distance c') moves
  /\ (forall col, In col moves -> exists child,
        make_move b col ai_player = Ret child
        /\ forall stats, exists stats',
             minimax fuel child (max_depth - 1) false ai_player NegInf PosInf stats
             = Ret (Fin (score col), stats'))
  /\ exists best stats before after,
       get_best_move fuel b ai_player max_depth = Ret (best, stats)
       /\ depth_used stats = max_depth
       /\ moves = before ++ best :: after
       /\ (forall col, In col before -> score col < score best)
       /\ (forall col, In col after -> score col <= score best).
Proof.
  intros Hwf Hai Hfuel Hne moves score.
  pose proof (root_children fuel b ai_player max_depth Hwf Hai Hfuel) as Hch.
  fold moves in Hch. fold score in Hch.
  split; [apply order_moves_perm|]. split; [apply order_moves_sorted|]. split.
  - intros col Hcol. destruct (Hch col Hcol) as (child & Hmv & Hs).
    exists child. split; [assumption|]. intros s.
    destruct (Hs s 0%nat) as (s' & _ & H & _). eauto.
  - unfold get_best_move. cbv zeta. fold moves.
    destruct moves as [|c rest] eqn:Hm.
    { subst moves. now apply order_moves_nil in Hm. }
    destruct (root_loop_agree _ _ b ai_player _ (c :: rest) Hch NegInf c 0%nat 0%nat)
      as (n & nF & Hn & _ & _).
    cbn -[root_loop]. rewrite Hn. simpl.
    destruct (pick_first_max score rest [] c []) as (before & after & Heq & Hb & Ha).
    { intros x []. } { intros x []. }
    simpl in Heq.
    eexists _, _, before, after. split; [reflexivity|]. split; [reflexivity|].
    split; [exact Heq|]. split; assumption.
Qed.

Lemma get_best_move_first_max_witness :
  exists best stats before after,
    get_best_move 42 create_board PLAYER_2 2 = Ret (best, stats)
    /\ depth_used stats = 2
    /\ _order_moves (get_legal_moves create_board) = before ++ best :: after
    /\ (forall col, In col before ->
          root_score 42 create_board PLAYER_2 2 col
          < root_score 42 create_board PLAYER_2 2 best)
    /\ (forall col, In col after ->
          root_score 42 create_board PLAYER_2 2 col
          <= root_score 42 create_board PLAYER_2 2 best).
Proof.
  refine (proj2 (proj2 (proj2 (get_best_move_first_max 42 create_board PLAYER_2 2
                   wf_create_board (or_intror eq_refl) _ _)))).
  - vm_compute. lia.
  - vm_compute. discriminate.
Defined.

(** ** Fuel and the depth horizon *)

Lemma max_loop_ext rec rec' b player cols :
  (forall child alpha beta s, rec child alpha beta s = rec' child alpha beta s) ->
  forall max_eval alpha beta s,
    max_loop rec b player cols max_eval alpha beta s
    = max_loop rec' b player cols max_eval alpha beta s.
Proof.
  intros Hext. induction cols as [|col rest IH]; intros max_eval alpha beta s; simpl;
    [reflexivity|].
  destruct (make_move b col player) as [child| |]; simpl; try reflexivity.
  rewrite Hext. destruct (rec' child alpha beta s) as [[v s1]| |]; simpl; try reflexivity.
  now rewrite IH.
Qed.

Lemma min_loop_ext rec rec' b player cols :
  (forall child alpha beta s, rec child alpha beta s = rec' child alpha beta s) ->
  forall min_eval alpha beta s,
    min_loop rec b player cols min_eval alpha beta s
    = min_loop rec' b player cols min_eval alpha beta s.
Proof.
  intros Hext. induction cols as [|col rest IH]; intros min_eval alpha beta s; simpl;
    [reflexivity|].
  destruct (make_move b col player) as [child| |]; simpl; try reflexivity.
  rewrite Hext. destruct (rec' child alpha beta s) as [[v s1]| |]; simpl; try reflexivity.
  now rewrite IH.
Qed.

(** From a negative depth the horizon is never met. *)
Lemma minimax_negative_depth fuel :
  forall b depth maximizing ai_player alpha beta stats,
    depth < 0 ->
    minimax fuel b depth maximizing ai_player alpha beta stats
    = search_to_end fuel b depth maximizing ai_player alpha beta stats.
Proof.
  induction fuel as [|fuel IH]; intros b depth maximizing ai alpha beta stats Hd;
    [reflexivity|].
  simpl. destruct (is_terminal b); [reflexivity|].
  destruct (Z.eqb_spec depth 0); [lia|].
  destruct maximizing.
  - apply max_loop_ext. intros. apply IH. lia.
  - apply min_loop_ext. intros. apply IH. lia.
Qed.

Lemma max_loop_mono rec rec' b player cols :
  (forall child alpha beta s x, rec child alpha beta s = Ret x ->
                                rec' child alpha beta s = Ret x) ->
  forall max_eval alpha beta s x,
    max_loop rec b player cols max_eval alpha beta s = Ret x ->
    max_loop rec' b player cols max_eval alpha beta s = Ret x.
Proof.
  intros Hm. induction cols as [|col rest IH]; intros max_eval alpha beta s x; simpl;
    [auto|].
  destruct (make_move b col player) as [child| |]; simpl; try discriminate.
  destruct (rec child alpha beta s) as [[v s1]| |] eqn:E; simpl; try discriminate.
  rewrite (Hm _ _ _ _ _ E). simpl.
  destruct (vge _ _); [auto|apply IH].
Qed.

Lemma min_loop_mono rec rec' b player cols :
  (forall child alpha beta s x, rec child alpha beta s = Ret x ->
                                rec' child alpha beta s = Ret x) ->
  forall min_eval alpha beta s x,
    min_loop rec b player cols min_eval alpha beta s = Ret x ->
    min_loop rec' b player cols min_eval alpha beta s = Ret x.
Proof.
  intros Hm. induction cols as [|col rest IH]; intros min_eval alpha beta s x; simpl;
    [auto|].
  destruct (make_move b col player) as [child| |]; simpl; try discriminate.
  destruct (rec child alpha beta s) as [[v s1]| |] eqn:E; simpl; try discriminate.
  rewrite (Hm _ _ _ _ _ E). simpl.
  destruct (vge _ _); [auto|apply IH].
Qed.

(** A result does not change when more fuel is given. *)
Lemma minimax_more_fuel fuel :
  forall fuel' b depth maximizing ai_player alpha beta stats x,
    (fuel <= fuel')%nat ->
    minimax fuel b depth maximizing ai_player alpha beta stats = Ret x ->
    minimax fuel' b depth maximizing ai_player alpha beta stats = Ret x.
Proof.
  induction fuel as [|fuel IH];
    intros fuel' b depth maximizing ai alpha beta stats x Hle; [discriminate|].
  destruct fuel' as [|fuel']; [lia|]. simpl.
  destruct (is_terminal b); [auto|]. destruct (depth =? 0); [auto|].
  destruct maximizing.
  - apply max_loop_mono. intros child a' b' s' y. apply IH.
    now apply Nat.succ_le_mono.
  - apply min_loop_mono. intros child a' b' s' y. apply IH.
    now apply Nat.succ_le_mono.
Qed.

(** C10: [minimax] returns for every board and every integer depth.  With
    any amount of fuel above the number of empty cells it returns one and
    the same finite value and counter; every legal move leads to a board
    with strictly fewer empty cells, and a board with no legal move is
    terminal; from a negative depth the test [depth == 0] never succeeds,
    so the search is the one that stops at terminal boards only. *)
Theorem minimax_terminates (b : board) (depth : Z) (maximizing : bool)
    (ai_player : Z) (alpha beta : value) (stats : nat) :
  wf_board b -> valid_player ai_player ->
  (exists v stats', forall fuel, (count_empty b < fuel)%nat ->
      minimax fuel b depth maximizing ai_player alpha beta stats = Ret (Fin v, stats'))
  /\ (forall col player, In col (get_legal_moves b) -> valid_player player ->
        exists child, make_move b col player = Ret child /\ wf_board child
                      /\ (count_empty child < count_empty b)%nat)
  /\ (get_legal_moves b = [] -> is_terminal b = true)
  /\ (depth < 0 -> forall fuel,
        minimax fuel b depth maximizing ai_player alpha beta stats
        = search_to_end fuel b depth maximizing ai_player alpha beta stats).
Proof.
  intros Hwf Hai. split; [|split; [|split]].
  - destruct (minimax_returns (S (count_empty b)) b depth maximizing ai_player
                alpha beta stats Hwf Hai ltac:(lia)) as (v & s' & Hv & _).
    exists v, s'. intros fuel Hfuel.
    eapply minimax_more_fuel; [|exact Hv]. lia.
  - intros col player Hcol Hp.
    destruct (make_move_legal b col player Hwf Hcol) as (child & Hmv & Hwfc & Hcnt).
    exists child. split; [assumption|]. split; [assumption|].
    specialize (Hcnt (valid_not_empty _ Hp)). lia.
  - intros Hnil. unfold is_terminal. rewrite Hnil. simpl. apply orb_true_r.
  - intros Hd fuel. now apply minimax_negative_depth.
Qed.

Lemma minimax_terminates_witness :
  exists v stats', forall fuel, (count_empty create_board < fuel)%nat ->
    minimax fuel create_board (-1) true PLAYER_2 NegInf PosInf 0 = Ret (Fin v, stats').
Proof.
  exact (proj1 (minimax_terminates create_board (-1) true PLAYER_2 NegInf PosInf 0
                  wf_create_board (or_intror eq_refl))).
Defined.

(** C8: on the empty 6x7 board with [max_depth = 1], [get_best_move]
    returns the center column 3 for either player: the children are scored
    by the heuristic, which gives 6 to the child with the piece in the
    center column and 0 to every other child. *)
Theorem best_move_empty_board (fuel : nat) :
  get_best_move (S fuel) create_board PLAYER_1 1
  = Ret (3, {| nodes_expanded := 7; depth_used := 1 |})
  /\ get_best_move (S fuel) create_board PLAYER_2 1
     = Ret (3, {| nodes_expanded := 7; depth_used := 1 |})
  /\ COLS / 2 = 3
  /\ map (root_score (S fuel) create_board PLAYER_1 1) (range 0 COLS)
     = [0; 0; 0; 6; 0; 0; 0]
  /\ map (root_score (S fuel) create_board PLAYER_2 1) (range 0 COLS)
     = [0; 0; 0; 6; 0; 0; 0]
  /\ map (fun col => child ← make_move create_board col PLAYER_1;
                     Ret (is_terminal child, heuristic_evaluate child PLAYER_1))
       (range 0 COLS)
     = map (fun col => Ret (false, if col =? 3 then 6 else 0)) (range 0 COLS)
  /\ map (fun col => child ← make_move create_board col PLAYER_2;
                     Ret (is_terminal child, heuristic_evaluate child PLAYER_2))
       (range 0 COLS)
     = map (fun col => Ret (false, if col =? 3 then 6 else 0)) (range 0 COLS).
Proof. repeat split; vm_compute; reflexivity. Qed.

(** * Further properties of the board model *)

Lemma StronglySorted_filter {A} (R : A -> A -> Prop) (f : A -> bool) (l : list A) :
  StronglySorted R l -> StronglySorted R (List.filter f l).
Proof.
  induction 1 as [|x l Hs IH Hx]; simpl; [constructor|].
  destruct (f x); [|assumption]. constructor; [assumption|].
  rewrite Forall_forall in Hx |- *. intros y Hy.
  apply list_elem_of_In, filter_In in Hy as [Hy _]. apply Hx. now apply list_elem_of_In.
Qed.

Lemma cols_sorted : StronglySorted Z.lt (range 0 COLS).
Proof. rewrite cols_up. repeat constructor. Qed.

Lemma make_move_returns_iff b col player :
  (exists child, make_move b col player = Ret child) <-> In col (get_legal_moves b).
Proof.
  rewrite legal_move_iff. unfold make_move. split.
  - intros [child H]. revert H. zbool; intros; try discriminate. lia.
  - intros [Hc Ht]. rewrite Ht.
    replace ((col <? 0) || (col >=? COLS)) with false by (zbool; lia).
    simpl. eauto.
Qed.

(** X1: [get_legal_moves] lists, in ascending order and without repeats,
    exactly the columns of [0, COLS) whose top cell is empty, and those are
    exactly the columns on which [make_move] returns a board instead of
    raising. *)
Theorem get_legal_moves_spec (b : board) :
  (forall col, In col (get_legal_moves b) <-> 0 <= col < COLS /\ cell b 0 col = EMPTY)
  /\ StronglySorted Z.lt (get_legal_moves b)
  /\ NoDup (get_legal_moves b)
  /\ (forall col player,
        (exists child, make_move b col player = Ret child)
        <-> In col (get_legal_moves b))
  /\ (forall col player,
        make_move b col player = Raise ValueError <-> ~ In col (get_legal_moves b)).
Proof.
  split; [apply legal_move_iff|]. split; [apply StronglySorted_filter, cols_sorted|].
  split.
  { unfold get_legal_moves. apply NoDup_ListNoDup, List.NoDup_filter.
    rewrite cols_up. apply NoDup_ListNoDup, (bool_decide_unpack _). reflexivity. }
  split; [intros; apply make_move_returns_iff|].
  intros col player. rewrite make_move_raises, legal_move_iff.
  destruct (Z.eq_dec (cell b 0 col) EMPTY); lia.
Qed.

(** The legal moves after a piece has been written into cell ([row], [col]). *)
Lemma legal_after_set_cell b row col player c :
  wf_board b -> 0 <= row < ROWS -> 0 <= col < COLS -> player <> EMPTY ->
  In c (get_legal_moves (set_cell b row col player))
  <-> In c (get_legal_moves b) /\ ~ (c = col /\ row = 0).
Proof.
  intros Hwf Hrow Hcol Hp. rewrite !legal_move_iff. split.
  - intros [Hc H]. rewrite cell_set_cell in H by (try assumption; lia).
    destruct (Z.eqb_spec 0 row), (Z.eqb_spec c col); simpl in H; try tauto; lia.
  - intros [[Hc H] Hn]. split; [assumption|].
    rewrite cell_set_cell by (try assumption; lia).
    destruct (Z.eqb_spec 0 row), (Z.eqb_spec c col); simpl; try assumption. lia.
Qed.

(** X2: a legal move by a player removes exactly one empty cell, and the
    legal moves afterwards are those before, less the played column when
    (and only when) the piece landed in the top row. *)
Theorem make_move_legal_moves (b : board) (col player : Z) :
  wf_board b -> In col (get_legal_moves b) -> valid_player player ->
  exists child row,
    make_move b col player = Ret child
    /\ lowest_empty b col row
    /\ S (count_empty child) = count_empty b
    /\ (forall c, In c (get_legal_moves child)
                  <-> In c (get_legal_moves b) /\ ~ (c = col /\ row = 0)).
Proof.
  intros Hwf Hcol Hp. pose proof Hcol as [Hc Ht]%legal_move_iff.
  destruct (make_move_ok b col player Hwf Hc Ht) as (row & Hlow & Hmv).
  exists (set_cell b row col player), row. split; [assumption|]. split; [assumption|].
  destruct Hlow as (Hrow & He & _). split.
  - apply count_empty_set_cell; try assumption. now apply valid_not_empty.
  - intros c. apply legal_after_set_cell; try assumption. now apply valid_not_empty.
Qed.

Lemma make_move_legal_moves_witness :
  exists child row,
    make_move create_board 3 PLAYER_1 = Ret child
    /\ lowest_empty create_board 3 row
    /\ S (count_empty child) = count_empty create_board
    /\ (forall c, In c (get_legal_moves child)
                  <-> In c (get_legal_moves create_board) /\ ~ (c = 3 /\ row = 0)).
Proof.
  apply (make_move_legal_moves create_board 3 PLAYER_1).
  - exact wf_create_board.
  - exact center_legal_on_empty.
  - left. reflexivity.
Defined.

(** X3: [get_opponent] always returns one of the two players and never its
    argument; on the two players it is an involution, and every other
    integer is sent to [PLAYER_2]. *)
Theorem get_opponent_spec (player : Z) :
  valid_player (get_opponent player)
  /\ get_opponent player <> player
  /\ (valid_player player -> get_opponent (get_opponent player) = player)
  /\ (~ valid_player player -> get_opponent player = PLAYER_2).
Proof.
  unfold get_opponent, valid_player, PLAYER_1, PLAYER_2.
  destruct (Z.eqb_spec player 2) as [->|Hne]; simpl.
  - repeat split; try tauto; try lia.
  - repeat split; try tauto; try lia.
Qed.

Lemma utility_values b player : utility b player = 1 \/ utility b player = -1 \/ utility b player = 0.
Proof.
  unfold utility. destruct (winner_is _ _); [auto|]. destruct (is_not_None _); auto.
Qed.

(** X4: the game is zero-sum: the utility of a board for a player is the
    negation of its utility for the opponent, and is 1, -1 or 0. *)
Theorem utility_zero_sum (b : board) (player : Z) :
  valid_player player ->
  utility b (get_opponent player) = - utility b player
  /\ (utility b player = 1 \/ utility b player = -1 \/ utility b player = 0).
Proof.
  intros Hp. split; [|apply utility_values].
  unfold utility. destruct (get_winner b) as [w|] eqn:Hw; simpl; [|reflexivity].
  apply get_winner_player in Hw.
  destruct Hw as [-> | ->], Hp as [-> | ->]; reflexivity.
Qed.

Lemma utility_zero_sum_witness :
  utility two_columns (get_opponent PLAYER_2) = - utility two_columns PLAYER_2.
Proof.
  exact (proj1 (utility_zero_sum two_columns PLAYER_2 (or_intror eq_refl))).
Defined.

Lemma filter_length_0 {A} (f : A -> bool) (l : list A) :
  length (List.filter f l) = 0%nat <-> forall x, In x l -> f x = false.
Proof.
  induction l as [|y l IH]; simpl; [tauto|].
  destruct (f y) eqn:E; simpl.
  - split; [discriminate|]. intros H. specialize (H y (or_introl eq_refl)). congruence.
  - rewrite IH. split; [intros H x [<-|Hx]; auto|auto].
Qed.

Lemma cell_in_concat b r c :
  wf_board b -> 0 <= r < ROWS -> 0 <= c < COLS -> In (cell b r c) (concat b).
Proof.
  intros Hwf Hr Hc. destruct (wf_lookup b r Hwf Hr) as [x Hx].
  assert (Hlen : length x = Z.to_nat COLS) by (eapply wf_row; eauto).
  assert (Hlt : (Z.to_nat c < length x)%nat) by (rewrite Hlen; unfold COLS in *; lia).
  destruct (lookup_lt_is_Some_2 _ _ Hlt) as [y Hy].
  unfold cell. rewrite Hx, Hy. simpl. apply in_concat. exists x.
  split; apply list_elem_of_In, list_elem_of_lookup; eauto.
Qed.

Lemma concat_is_cell b x :
  wf_board b -> In x (concat b) ->
  exists r c, 0 <= r < ROWS /\ 0 <= c < COLS /\ x = cell b r c.
Proof.
  intros Hwf (row & Hrow & Hx)%in_concat.
  apply list_elem_of_In, list_elem_of_lookup in Hrow as [i Hi].
  apply list_elem_of_In, list_elem_of_lookup in Hx as [j Hj].
  pose proof (lookup_lt_Some _ _ _ Hi) as Hil. pose proof (lookup_lt_Some _ _ _ Hj) as Hjl.
  rewrite (wf_row b i row Hwf Hi) in Hjl. destruct Hwf as [HL _]. rewrite HL in Hil.
  exists (Z.of_nat i), (Z.of_nat j). unfold ROWS, COLS in *.
  split; [lia|]. split; [lia|]. unfold cell. now rewrite !Nat2Z.id, Hi, Hj.
Qed.

Lemma count_empty_0 b :
  wf_board b ->
  count_empty b = 0%nat
  <-> forall r c, 0 <= r < ROWS -> 0 <= c < COLS -> cell b r c <> EMPTY.
Proof.
  intros Hwf. unfold count_empty. rewrite filter_length_0. split.
  - intros H r c Hr Hc. apply Z.eqb_neq, H. now apply cell_in_concat.
  - intros H x Hx. destruct (concat_is_cell b x Hwf Hx) as (r & c & Hr & Hc & ->).
    now apply Z.eqb_neq, H.
Qed.

Lemma no_legal_moves_iff b :
  get_legal_moves b = [] <-> forall c, 0 <= c < COLS -> cell b 0 c <> EMPTY.
Proof.
  split.
  - intros H c Hc He. assert (Hin : In c (get_legal_moves b)) by now apply legal_move_iff.
    rewrite H in Hin. destruct Hin.
  - intros H. destruct (get_legal_moves b) as [|c l] eqn:E; [reflexivity|].
    assert (Hin : In c (get_legal_moves b)) by (rewrite E; now left).
    apply legal_move_iff in Hin as [Hc He]. now apply H in He.
Qed.

Lemma full_board_no_moves b :
  wf_board b -> count_empty b = 0%nat -> get_legal_moves b = [].
Proof.
  intros Hwf H0. apply no_legal_moves_iff. intros c Hc.
  apply (proj1 (count_empty_0 b Hwf) H0); unfold ROWS; lia.
Qed.

(** X5: a board has no empty cell exactly when every cell of the grid is
    occupied; such a board has no legal move and is terminal; and under the
    gravity invariant a board with no legal move (a full top row) has no
    empty cell at all, so a terminal board without a winner is a full
    board. *)
Theorem full_board_terminal (b : board) :
  wf_board b ->
  (count_empty b = 0%nat
   <-> forall r c, 0 <= r < ROWS -> 0 <= c < COLS -> cell b r c <> EMPTY)
  /\ (count_empty b = 0%nat -> get_legal_moves b = [] /\ is_terminal b = true)
  /\ (gravity b -> get_legal_moves b = [] -> count_empty b = 0%nat)
  /\ (gravity b -> is_terminal b = true -> get_winner b = None -> count_empty b = 0%nat).
Proof.
  intros Hwf. split; [now apply count_empty_0|].
  assert (Hg : gravity b -> get_legal_moves b = [] -> count_empty b = 0%nat).
  { intros Hgr Hnil. apply count_empty_0; [assumption|]. intros r c Hr Hc.
    pose proof (proj1 (no_legal_moves_iff b) Hnil c Hc) as Htop.
    destruct (Z.eq_dec r 0) as [->|Hne]; [assumption|].
    apply (Hgr 0 r c); try assumption; lia. }
  split; [|split; [exact Hg|]].
  - intros H0. pose proof (full_board_no_moves b Hwf H0) as Hnil.
    split; [assumption|]. unfold is_terminal. rewrite Hnil. apply orb_true_r.
  - intros Hgr Ht Hw. apply Hg; [assumption|]. unfold is_terminal in Ht.
    rewrite Hw in Ht. simpl in Ht. apply Z.eqb_eq in Ht.
    destruct (get_legal_moves b); [reflexivity|simpl in Ht; lia].
Qed.

Lemma full_board_terminal_witness :
  wf_board create_board
  /\ (count_empty create_board = 0%nat
      <-> forall r c, 0 <= r < ROWS -> 0 <= c < COLS -> cell create_board r c <> EMPTY).
Proof.
  split; [exact wf_create_board|].
  exact (proj1 (full_board_terminal create_board wf_create_board)).
Defined.

(** A window that a player fills after another player's piece has been
    written was filled before. *)
Lemma filled_before_set_cell b row col player w q :
  wf_board b -> 0 <= row < ROWS -> 0 <= col < COLS ->
  window_in_board w -> q <> player ->
  filled_by (set_cell b row col player) w q -> filled_by b w q.
Proof.
  intros Hwf Hrow Hcol Hw Hq [Hv Hf]. split; [assumption|].
  destruct w as [[r c] d]. unfold window_values in *. unfold window_in_board in Hw.
  destruct (step d) as [dr dc] eqn:Hs. simpl in Hw.
  rewrite Forall_forall in Hf |- *. intros x Hx.
  apply list_elem_of_In, in_map_iff in Hx as (i & <- & Hi).
  pose proof (Hw i (proj1 (elem_range _ _ _) Hi)) as [Hr Hc].
  assert (Hin : In (cell (set_cell b row col player) (r + i * dr) (c + i * dc))
                  (map (fun i => cell (set_cell b row col player) (r + i * dr) (c + i * dc))
                     (range 0 WIN_LENGTH))).
  { apply in_map_iff. eauto. }
  apply list_elem_of_In, Hf in Hin.
  rewrite cell_set_cell in Hin by (try assumption; lia).
  destruct ((r + i * dr =? row) && (c + i * dc =? col)); [congruence|assumption].
Qed.

(** X6: a move never completes a line for the other player: every window
    the other player fills after the move was filled before it, so on a
    board without a winner the move leaves no winner or makes the mover
    the winner. *)
Theorem move_cannot_lose (b : board) (col player : Z) :
  wf_board b -> In col (get_legal_moves b) -> valid_player player ->
  exists child,
    make_move b col player = Ret child
    /\ (forall w q, window_in_board w -> q <> player ->
          filled_by child w q -> filled_by b w q)
    /\ (get_winner b = None ->
        get_winner child = None \/ get_winner child = Some player).
Proof.
  intros Hwf [Hc Ht]%legal_move_iff Hp.
  destruct (make_move_ok b col player Hwf Hc Ht) as (row & (Hrow & _) & Hmv).
  exists (set_cell b row col player). split; [assumption|].
  assert (Hbefore : forall w q, window_in_board w -> q <> player ->
            filled_by (set_cell b row col player) w q -> filled_by b w q).
  { intros w q Hw Hq. now apply filled_before_set_cell. }
  split; [exact Hbefore|].
  intros Hnone. destruct (get_winner (set_cell b row col player)) as [q|] eqn:Hq; [|auto].
  right. f_equal. destruct (Z.eq_dec q player) as [|Hne]; [assumption|].
  apply get_winner_Some in Hq. destruct Hq as (l1 & w & l2 & Hs & _ & Hf).
  assert (Hw : window_in_board w).
  { apply scan_order_complete. rewrite Hs. apply in_app_iff. right. now left. }
  exfalso. apply (proj1 (get_winner_None b) Hnone w q Hw). now apply Hbefore.
Qed.

Lemma move_cannot_lose_witness :
  exists child,
    make_move create_board 3 PLAYER_1 = Ret child
    /\ (forall w q, window_in_board w -> q <> PLAYER_1 ->
          filled_by child w q -> filled_by create_board w q)
    /\ (get_winner create_board = None ->
        get_winner child = None \/ get_winner child = Some PLAYER_1).
Proof.
  apply (move_cannot_lose create_board 3 PLAYER_1).
  - exact wf_create_board.
  - exact center_legal_on_empty.
  - left. reflexivity.
Defined.

(** X7: [get_winner] recognises a line in any of the four directions: it
    returns a player only if that player fills a window on the board, it
    returns some player as soon as a player fills one, and it returns that
    very player when the opponent fills none. *)
Theorem get_winner_recognises (b : board) (player : Z) :
  (get_winner b = Some player ->
   exists w, window_in_board w /\ filled_by b w player)
  /\ (forall w, window_in_board w -> filled_by b w player ->
        (exists q, get_winner b = Some q)
        /\ ((forall w', window_in_board w' -> ~ filled_by b w' (get_opponent player)) ->
            get_winner b = Some player)).
Proof.
  split.
  - intros H. apply get_winner_Some in H. destruct H as (l1 & w & l2 & Hs & _ & Hf).
    exists w. split; [|assumption].
    apply scan_order_complete. rewrite Hs. apply in_app_iff. right. now left.
  - intros w Hw Hf.
    assert (Hsome : exists q, get_winner b = Some q).
    { destruct (get_winner b) as [q|] eqn:E; [eauto|].
      exfalso. exact (proj1 (get_winner_None b) E w player Hw Hf). }
    split; [assumption|]. intros Hopp. destruct Hsome as [q Hq]. rewrite Hq. f_equal.
    pose proof Hq as Hq'. apply get_winner_Some in Hq'.
    destruct Hq' as (l1 & w' & l2 & Hs & _ & Hf').
    assert (Hw' : window_in_board w').
    { apply scan_order_complete. rewrite Hs. apply in_app_iff. right. now left. }
    destruct Hf as [Hp _]. pose proof Hf' as [Hvq _].
    destruct Hp as [-> | ->], Hvq as [-> | ->]; try reflexivity;
      exfalso; exact (Hopp w' Hw' Hf').
Qed.

(** * Further properties of the heuristic evaluator *)

Lemma count_eq_le_length xs v : count_eq xs v <= Z.of_nat (length xs).
Proof.
  unfold count_eq. induction xs as [|x xs IH]; simpl; [lia|].
  destruct (x =? v); simpl; lia.
Qed.

Lemma count_eq_full xs v :
  count_eq xs v = Z.of_nat (length xs) <-> Forall (fun x => x = v) xs.
Proof.
  induction xs as [|x xs IH].
  - split; [constructor|reflexivity].
  - pose proof (count_eq_le_length xs v) as Hle. unfold count_eq in *. simpl.
    destruct (Z.eqb_spec x v) as [->|Hne]; simpl.
    + rewrite Forall_cons. split.
      * intros H. split; [reflexivity|]. apply IH. lia.
      * intros [_ H]. apply IH in H. lia.
    + split; [lia|]. intros H. apply Forall_cons in H as [H _]. contradiction.
Qed.

Lemma count_eq_perm xs ys v : Permutation xs ys -> count_eq xs v = count_eq ys v.
Proof.
  intros H. unfold count_eq. f_equal.
  induction H as [|x l l' _ IH|x y l|l l' l'' _ IH1 _ IH2]; simpl.
  - reflexivity.
  - destruct (x =? v); simpl; lia.
  - destruct (x =? v), (y =? v); simpl; lia.
  - lia.
Qed.

(** X8: on a window of four cells, for two different players, the window
    score is one of 100, 10, 5, -8, -4 and 0; it is 100 exactly when all
    four cells are the evaluating player's; and it does not depend on the
    order of the cells. *)
Theorem score_window_values (xs : list Z) (ai_player opponent : Z) :
  length xs = 4%nat ->
  ai_player <> opponent -> ai_player <> EMPTY -> opponent <> EMPTY ->
  In (_score_window xs ai_player opponent) [100; 10; 5; -8; -4; 0]
  /\ (_score_window xs ai_player opponent = 100 <-> Forall (fun x => x = ai_player) xs)
  /\ (forall ys, Permutation xs ys ->
        _score_window ys ai_player opponent = _score_window xs ai_player opponent).
Proof.
  intros Hlen Hao Hae Hoe.
  pose proof (count_eq_disjoint xs _ _ _ Hao Hae Hoe) as Hsum. rewrite Hlen in Hsum.
  pose proof (count_eq_nonneg xs ai_player).
  pose proof (count_eq_nonneg xs opponent).
  pose proof (count_eq_nonneg xs EMPTY).
  split; [|split].
  - unfold _score_window. cbv zeta. zbool; simpl; try lia; tauto.
  - rewrite <- count_eq_full, Hlen. unfold _score_window. cbv zeta. zbool; simpl; lia.
  - intros ys Hp. unfold _score_window.
    now rewrite !(count_eq_perm xs ys) by assumption.
Qed.

Lemma score_window_values_witness :
  In (_score_window [1; 1; 1; 0] PLAYER_1 PLAYER_2) [100; 10; 5; -8; -4; 0].
Proof.
  refine (proj1 (score_window_values [1; 1; 1; 0] PLAYER_1 PLAYER_2 eq_refl _ _ _));
    discriminate.
Defined.

Lemma sum_list_bounds {A} (f : A -> Z) (lo hi : Z) (l : list A) :
  (forall x, In x l -> lo <= f x <= hi) ->
  Z.of_nat (length l) * lo <= sum_list (map f l) <= Z.of_nat (length l) * hi.
Proof.
  induction l as [|x l IH]; intros H; [simpl; lia|].
  specialize (IH (fun y Hy => H y (or_intror Hy))).
  specialize (H x (or_introl eq_refl)).
  change (sum_list (map f (x :: l))) with (f x + sum_list (map f l)).
  rewrite length_cons, Nat2Z.inj_succ. lia.
Qed.

Lemma scan_order_length : length scan_order = 69%nat.
Proof. reflexivity. Qed.

Lemma code_window_score_range b player w :
  valid_player player ->
  -8 <= code_window_score b player w <= 100
  /\ (~ filled_by b w player -> code_window_score b player w <= 10).
Proof.
  intros Hp. rewrite score_window_spec by assumption.
  pose proof (window_counts b w player Hp) as Hsum.
  pose proof (count_eq_nonneg (window_values b w) player).
  pose proof (count_eq_nonneg (window_values b w) (get_opponent player)).
  pose proof (count_eq_nonneg (window_values b w) EMPTY).
  split.
  - unfold spec_window_score. zbool; lia.
  - intros Hnf.
    assert (Hne : count_eq (window_values b w) player <> 4).
    { intros H4. apply Hnf. split; [assumption|].
      apply count_eq_full. now rewrite length_window_values. }
    unfold spec_window_score. zbool; lia.
Qed.

Lemma center_count_range b player :
  0 <= count_eq (map (fun row => cell b row (COLS / 2)) (range 0 ROWS)) player <= 6.
Proof.
  split; [apply count_eq_nonneg|].
  pose proof (count_eq_le_length
                (map (fun row => cell b row (COLS / 2)) (range 0 ROWS)) player) as H.
  rewrite length_map in H. exact H.
Qed.

Lemma heuristic_range b player :
  valid_player player ->
  -552 <= heuristic_evaluate b player <= 6936
  /\ (get_winner b = None -> heuristic_evaluate b player <= 726).
Proof.
  intros Hp. rewrite heuristic_evaluate_scan.
  pose proof (center_count_range b player) as Hc.
  split.
  - pose proof (sum_list_bounds (code_window_score b player) (-8) 100 scan_order
                  (fun w _ => proj1 (code_window_score_range b player w Hp))) as Hs.
    rewrite scan_order_length in Hs. lia.
  - intros Hnone.
    assert (Hw : forall w, In w scan_order -> -8 <= code_window_score b player w <= 10).
    { intros w Hin. destruct (code_window_score_range b player w Hp) as [[Hlo _] H10].
      split; [assumption|]. apply H10.
      apply (proj1 (get_winner_None b) Hnone). now apply scan_order_complete. }
    pose proof (sum_list_bounds (code_window_score b player) (-8) 10 scan_order Hw) as Hs.
    rewrite scan_order_length in Hs. lia.
Qed.

(** X9: the heuristic value of any board lies between -552 and 6936, and
    on a board without a winner it is at most 726: it stays strictly
    inside (-1000, 1000), below every terminal win value 1000 + depth and
    above every terminal loss value -1000 - depth of a non-negative
    depth. *)
Theorem heuristic_evaluate_bounded (b : board) (player : Z) :
  valid_player player ->
  -552 <= heuristic_evaluate b player <= 6936
  /\ (get_winner b = None ->
      -1000 < heuristic_evaluate b player < 1000
      /\ heuristic_evaluate b player <= 726).
Proof.
  intros Hp. destruct (heuristic_range b player Hp) as [Hr Hn].
  split; [assumption|]. intros Hnone. specialize (Hn Hnone). lia.
Qed.

Lemma heuristic_evaluate_bounded_witness :
  -552 <= heuristic_evaluate create_board PLAYER_2 <= 6936.
Proof.
  exact (proj1 (heuristic_evaluate_bounded create_board PLAYER_2 (or_intror eq_refl))).
Defined.

(** * Further properties of the move ordering *)

Lemma insert_by_key_filter key x l k :
  List.filter (fun y => key y =? k) (insert_by_key key x l)
  = if key x =? k then x :: List.filter (fun y => key y =? k) l
    else List.filter (fun y => key y =? k) l.
Proof.
  induction l as [|y l IH]; simpl; [now destruct (key x =? k)|].
  destruct (Z.leb_spec (key x) (key y)) as [Hle|Hlt]; simpl.
  - now destruct (key x =? k).
  - rewrite IH. destruct (Z.eqb_spec (key x) k) as [Hx|Hx]; [|reflexivity].
    destruct (Z.eqb_spec (key y) k); [lia|reflexivity].
Qed.

Lemma sorted_stable xs key k :
  List.filter (fun y => key y =? k) (sorted xs key)
  = List.filter (fun y => key y =? k) xs.
Proof.
  induction xs as [|x xs IH]; simpl; [reflexivity|].
  rewrite insert_by_key_filter, IH. reflexivity.
Qed.

Lemma sorted_of_sorted xs key :
  StronglySorted (fun a c => key a <= key c) xs -> sorted xs key = xs.
Proof.
  induction 1 as [|x l Hs IH Hx]; [reflexivity|].
  unfold sorted in *. simpl. rewrite IH. destruct l as [|y l]; simpl; [reflexivity|].
  apply Forall_cons in Hx as [Hxy _].
  destruct (Z.leb_spec (key x) (key y)); [reflexivity|lia].
Qed.

(** X10: [_order_moves] is a stable sort by distance from the center
    column: its result is a permutation of the moves, in order of
    non-decreasing distance, with moves at the same distance in their
    original order; ordering twice changes nothing, and when the center
    column is among the moves it comes first. *)
Theorem order_moves_stable_sort (moves : list Z) :
  Permutation (_order_moves moves) moves
  /\ StronglySorted (fun c c' => center_distance c <= center_distance c')
       (_order_moves moves)
  /\ (forall k, List.filter (fun c => center_distance c =? k) (_order_moves moves)
                = List.filter (fun c => center_distance c =? k) moves)
  /\ _order_moves (_order_moves moves) = _order_moves moves
  /\ (In (COLS / 2) moves -> exists rest, _order_moves moves = COLS / 2 :: rest).
Proof.
  split; [apply order_moves_perm|]. split; [apply order_moves_sorted|].
  split; [intros k; apply (sorted_stable moves center_distance k)|].
  split.
  - apply (sorted_of_sorted (_order_moves moves) center_distance), order_moves_sorted.
  - intros Hin. apply (Permutation_in _ (Permutation_sym (order_moves_perm moves))) in Hin.
    pose proof (order_moves_sorted moves) as Hs.
    destruct (_order_moves moves) as [|h rest]; [destruct Hin|].
    exists rest. f_equal. destruct Hin as [Hh|Hin]; [assumption|].
    apply StronglySorted_inv in Hs as [_ Hall]. rewrite Forall_forall in Hall.
    apply list_elem_of_In, Hall in Hin. unfold center_distance, COLS in *.
    change (7 / 2) with 3 in *. lia.
Qed.

(** * Further properties of the search *)

Lemma max_loop_shift rec b player cols :
  (forall child alpha beta s v s' k,
      rec child alpha beta s = Ret (v, s') ->
      rec child alpha beta (s + k)%nat = Ret (v, (s' + k)%nat) /\ (s <= s')%nat) ->
  forall max_eval alpha beta s v s' k,
    max_loop rec b player cols max_eval alpha beta s = Ret (v, s') ->
    max_loop rec b player cols max_eval alpha beta (s + k)%nat = Ret (v, (s' + k)%nat)
    /\ (s <= s')%nat.
Proof.
  intros Hrec. induction cols as [|col rest IH]; intros max_eval alpha beta s v s' k; simpl.
  - intros [= <- <-]. split; [reflexivity|lia].
  - destruct (make_move b col player) as [child| |]; simpl; try discriminate.
    destruct (rec child alpha beta s) as [[e s1]| |] eqn:E; simpl; try discriminate.
    destruct (Hrec _ _ _ _ _ _ k E) as [-> Hle]. simpl.
    destruct (vge _ _).
    + intros [= <- <-]. split; [reflexivity|lia].
    + intros H. apply (IH _ _ _ _ _ _ k) in H as [H1 H2]. split; [assumption|lia].
Qed.

Lemma min_loop_shift rec b player cols :
  (forall child alpha beta s v s' k,
      rec child alpha beta s = Ret (v, s') ->
      rec child alpha beta (s + k)%nat = Ret (v, (s' + k)%nat) /\ (s <= s')%nat) ->
  forall min_eval alpha beta s v s' k,
    min_loop rec b player cols min_eval alpha beta s = Ret (v, s') ->
    min_loop rec b player cols min_eval alpha beta (s + k)%nat = Ret (v, (s' + k)%nat)
    /\ (s <= s')%nat.
Proof.
  intros Hrec. induction cols as [|col rest IH]; intros min_eval alpha beta s v s' k; simpl.
  - intros [= <- <-]. split; [reflexivity|lia].
  - destruct (make_move b col player) as [child| |]; simpl; try discriminate.
    destruct (rec child alpha beta s) as [[e s1]| |] eqn:E; simpl; try discriminate.
    destruct (Hrec _ _ _ _ _ _ k E) as [-> Hle]. simpl.
    destruct (vge _ _).
    + intros [= <- <-]. split; [reflexivity|lia].
    + intros H. apply (IH _ _ _ _ _ _ k) in H as [H1 H2]. split; [assumption|lia].
Qed.

Lemma minimax_shift fuel :
  forall b depth maximizing ai_player alpha beta s v s' k,
    minimax fuel b depth maximizing ai_player alpha beta s = Ret (v, s') ->
    minimax fuel b depth maximizing ai_player alpha beta (s + k)%nat
    = Ret (v, (s' + k)%nat)
    /\ (s < s')%nat.
Proof.
  induction fuel as [|fuel IH]; intros b depth maximizing ai alpha beta s v s' k;
    [discriminate|].
  simpl. replace (s + k + 1)%nat with (s + 1 + k)%nat by lia.
  destruct (is_terminal b).
  { intros [= <- <-]. split; [reflexivity|lia]. }
  destruct (depth =? 0).
  { intros [= <- <-]. split; [reflexivity|lia]. }
  assert (Hrec : forall mx child alpha beta s v s' k,
    minimax fuel child (depth - 1) mx ai alpha beta s = Ret (v, s') ->
    minimax fuel child (depth - 1) mx ai alpha beta (s + k)%nat = Ret (v, (s' + k)%nat)
    /\ (s <= s')%nat).
  { intros mx child a' b' s0 v0 s0' k0 H. apply (IH _ _ _ _ _ _ _ _ _ k0) in H as [H1 H2].
    split; [assumption|lia]. }
  destruct maximizing; intros H.
  - apply (max_loop_shift _ _ _ _ (Hrec false) _ _ _ _ _ _ k) in H as [H1 H2].
    split; [assumption|lia].
  - apply (min_loop_shift _ _ _ _ (Hrec true) _ _ _ _ _ _ k) in H as [H1 H2].
    split; [assumption|lia].
Qed.

(** X11: the node counter is an accumulator: a search that returns has
    counted at least one node, and started from a counter that is [k]
    higher it returns the same value and a counter that is [k] higher, so
    the value never depends on the counter. *)
Theorem minimax_counter_accumulates (fuel : nat) (b : board) (depth : Z)
    (maximizing : bool) (ai_player : Z) (alpha beta : value) (stats : nat)
    (v : value) (stats' : nat) :
  minimax fuel b depth maximizing ai_player alpha beta stats = Ret (v, stats') ->
  (stats < stats')%nat
  /\ forall k,
       minimax fuel b depth maximizing ai_player alpha beta (stats + k)%nat
       = Ret (v, (stats' + k)%nat).
Proof.
  intros H. split.
  - exact (proj2 (minimax_shift fuel _ _ _ _ _ _ _ _ _ 0%nat H)).
  - intros k. exact (proj1 (minimax_shift fuel _ _ _ _ _ _ _ _ _ k H)).
Qed.

Lemma minimax_counter_accumulates_witness :
  minimax 1 two_columns 5 false PLAYER_1 NegInf PosInf (0 + 3)%nat
  = Ret (Fin 1005, (1 + 3)%nat).
Proof.
  exact (proj2 (minimax_counter_accumulates 1 two_columns 5 false PLAYER_1 NegInf PosInf
                  0 (Fin 1005) 1 eq_refl) 3%nat).
Defined.

(** X12: alpha-beta windows are sound at every node, not only at the
    root: searched with a window alpha < beta, [minimax] returns a value
    that is exact when it falls strictly inside the window, an upper bound
    of the unpruned value when it is at most alpha, and a lower bound when
    it is at least beta; with the window (-inf, +inf) it is the unpruned
    value; and it never counts more nodes than the unpruned search. *)
Theorem alpha_beta_window_sound (fuel : nat) (b : board) (depth : Z)
    (maximizing : bool) (ai_player : Z) (alpha beta : value) (stats stats_full : nat) :
  wf_board b -> valid_player ai_player -> (count_empty b < fuel)%nat ->
  vlt alpha beta = true ->
  exists r f stats' stats_full',
    minimax fuel b depth maximizing ai_player alpha beta stats = Ret (Fin r, stats')
    /\ Unpruned.minimax fuel b depth maximizing ai_player stats_full
       = Ret (Fin f, stats_full')
    /\ (vlt alpha (Fin r) = false -> f <= r)
    /\ (vlt alpha (Fin r) = true -> vlt (Fin r) beta = true -> f = r)
    /\ (vlt (Fin r) beta = false -> r <= f)
    /\ (alpha = NegInf -> beta = PosInf -> f = r)
    /\ (stats' - stats <= stats_full' - stats_full)%nat.
Proof.
  intros Hwf Hai Hfuel Hab.
  destruct (minimax_sound fuel b depth maximizing ai_player Hwf Hai Hfuel)
    as (Hret & HretF & Hsound).
  destruct (Hret alpha beta stats) as (r & s' & Hr & Hs).
  destruct (HretF stats_full) as (f & sF' & Hf & HsF).
  destruct (Hsound _ _ _ _ _ _ _ _ Hab Hr Hf) as [(H1 & H2 & H3) Hc].
  exists r, f, s', sF'. split; [assumption|]. split; [assumption|].
  split; [|split; [|split; [|split]]].
  - intros H. apply H1 in H. simpl in H. now apply Z.ltb_ge in H.
  - intros Ha Hb. specialize (H2 Ha Hb). congruence.
  - intros H. apply H3 in H. simpl in H. now apply Z.ltb_ge in H.
  - intros -> ->. specialize (H2 eq_refl eq_refl). congruence.
  - lia.
Qed.

Lemma alpha_beta_window_sound_witness :
  exists r f stats' stats_full',
    minimax 43 create_board 2 true PLAYER_2 (Fin 0) (Fin 5) 0 = Ret (Fin r, stats')
    /\ Unpruned.minimax 43 create_board 2 true PLAYER_2 0 = Ret (Fin f, stats_full')
    /\ (vlt (Fin 0) (Fin r) = false -> f <= r)
    /\ (vlt (Fin 0) (Fin r) = true -> vlt (Fin r) (Fin 5) = true -> f = r)
    /\ (vlt (Fin r) (Fin 5) = false -> r <= f)
    /\ (Fin 0 = NegInf -> Fin 5 = PosInf -> f = r)
    /\ (stats' - 0 <= stats_full' - 0)%nat.
Proof.
  refine (alpha_beta_window_sound 43 create_board 2 true PLAYER_2 (Fin 0) (Fin 5) 0 0
            wf_create_board (or_intror eq_refl) _ eq_refl).
  vm_compute. lia.
Defined.

Lemma max_loop_in_range rec b player cols lo hi :
  (forall col, In col cols -> exists child,
      make_move b col player = Ret child
      /\ forall alpha beta s, exists v s',
           rec child alpha beta s = Ret (Fin v, s') /\ lo <= v <= hi) ->
  forall max_eval alpha beta s,
    (max_eval = NegInf /\ cols <> [] \/ exists x, max_eval = Fin x /\ lo <= x <= hi) ->
    exists v s',
      max_loop rec b player cols max_eval alpha beta s = Ret (Fin v, s')
      /\ lo <= v <= hi.
Proof.
  induction cols as [|col rest IH]; intros Hrec max_eval alpha beta s Hm.
  - simpl. destruct Hm as [[_ H]|(x & -> & Hx)]; [now destruct H|eauto].
  - destruct (Hrec col (or_introl eq_refl)) as (child & Hmv & Hret).
    destruct (Hret alpha beta s) as (v & s1 & Hv & Hb).
    simpl. rewrite Hmv. simpl. rewrite Hv. simpl.
    assert (Hfin : exists x, vmax max_eval (Fin v) = Fin x /\ lo <= x <= hi).
    { rewrite vmax_eq. destruct Hm as [[-> _]|(x & -> & Hx)]; simpl; [eauto|].
      eexists; split; [reflexivity|lia]. }
    destruct Hfin as (x & Hx & Hxb). rewrite Hx.
    destruct (vge _ _); [eauto|].
    apply IH; [intros c Hc; apply Hrec; now right|]. right. eauto.
Qed.

Lemma min_loop_in_range rec b player cols lo hi :
  (forall col, In col cols -> exists child,
      make_move b col player = Ret child
      /\ forall alpha beta s, exists v s',
           rec child alpha beta s = Ret (Fin v, s') /\ lo <= v <= hi) ->
  forall min_eval alpha beta s,
    (min_eval = PosInf /\ cols <> [] \/ exists x, min_eval = Fin x /\ lo <= x <= hi) ->
    exists v s',
      min_loop rec b player cols min_eval alpha beta s = Ret (Fin v, s')
      /\ lo <= v <= hi.
Proof.
  induction cols as [|col rest IH]; intros Hrec min_eval alpha beta s Hm.
  - simpl. destruct Hm as [[_ H]|(x & -> & Hx)]; [now destruct H|eauto].
  - destruct (Hrec col (or_introl eq_refl)) as (child & Hmv & Hret).
    destruct (Hret alpha beta s) as (v & s1 & Hv & Hb).
    simpl. rewrite Hmv. simpl. rewrite Hv. simpl.
    assert (Hfin : exists x, vmin min_eval (Fin v) = Fin x /\ lo <= x <= hi).
    { rewrite vmin_eq. destruct Hm as [[-> _]|(x & -> & Hx)]; simpl; [eauto|].
      eexists; split; [reflexivity|lia]. }
    destruct Hfin as (x & Hx & Hxb). rewrite Hx.
    destruct (vge _ _); [eauto|].
    apply IH; [intros c Hc; apply Hrec; now right|]. right. eauto.
Qed.

Lemma terminal_value_cases b depth ai_player :
  terminal_value b depth ai_player
  = match get_winner b with
    | Some w => if w =? ai_player then Fin (1000 + depth) else Fin (-1000 - depth)
    | None => Fin 0
    end.
Proof.
  unfold terminal_value. destruct (get_winner b) as [w|]; simpl; [|reflexivity].
  now destruct (w =? ai_player).
Qed.

Lemma minimax_in_range fuel :
  forall b depth maximizing ai_player alpha beta s,
    wf_board b -> valid_player ai_player -> (count_empty b < fuel)%nat -> 0 <= depth ->
    exists v s',
      minimax fuel b depth maximizing ai_player alpha beta s = Ret (Fin v, s')
      /\ -1000 - depth <= v <= 1000 + depth
      /\ (is_terminal b = false -> -1000 - depth < v < 1000 + depth).
Proof.
  induction fuel as [|fuel IH]; intros b depth maximizing ai alpha beta s Hwf Hai Hfuel Hd;
    [lia|].
  simpl. destruct (is_terminal b) eqn:Ht.
  { rewrite terminal_value_cases. destruct (get_winner b) as [w|];
      [destruct (w =? ai)|]; eexists _, _; (split; [reflexivity|]);
      (split; [lia|discriminate]). }
  destruct (Z.eqb_spec depth 0) as [->|Hne].
  { destruct (heuristic_range b ai Hai) as [Hr Hn].
    specialize (Hn (not_terminal_no_winner b Ht)).
    eexists _, _. split; [reflexivity|]. lia. }
  assert (Hne' : _order_moves (get_legal_moves b) <> []).
  { intros H%order_moves_nil. now apply not_terminal_legal in Ht. }
  assert (Hchild : forall player mx, valid_player player ->
    forall col, In col (_order_moves (get_legal_moves b)) -> exists child,
      make_move b col player = Ret child
      /\ forall alpha beta s, exists v s',
           minimax fuel child (depth - 1) mx ai alpha beta s = Ret (Fin v, s')
           /\ -1000 - (depth - 1) <= v <= 1000 + (depth - 1)).
  { intros player mx Hp col Hcol. apply (proj1 (order_moves_In _ _)) in Hcol.
    destruct (make_move_legal b col player Hwf Hcol) as (child & Hmv & Hwfc & Hcnt).
    exists child. split; [assumption|]. intros a' b' s'.
    specialize (Hcnt (valid_not_empty _ Hp)).
    destruct (IH child (depth - 1) mx ai a' b' s' Hwfc Hai ltac:(lia) ltac:(lia))
      as (v & s1 & Hv & Hb & _).
    eauto. }
  destruct maximizing.
  - destruct (max_loop_in_range _ b ai _ _ _ (Hchild ai false Hai) NegInf alpha beta
                (s + 1)%nat) as (v & s' & Hl & Hb); [left; auto|].
    exists v, s'. split; [assumption|]. lia.
  - destruct (min_loop_in_range _ b (get_opponent ai) _ _ _
                (Hchild (get_opponent ai) true (opponent_valid ai)) PosInf alpha beta
                (s + 1)%nat) as (v & s' & Hl & Hb); [left; auto|].
    exists v, s'. split; [assumption|]. lia.
Qed.

(** X13: with a non-negative depth budget the value [minimax] returns lies
    between -1000 - depth and 1000 + depth, and strictly inside on a board
    that is not terminal: only a board the AI player has already won
    reaches 1000 + depth. *)
Theorem minimax_value_bounded (fuel : nat) (b : board) (depth : Z)
    (maximizing : bool) (ai_player : Z) (alpha beta : value) (stats : nat) :
  wf_board b -> valid_player ai_player -> (count_empty b < fuel)%nat -> 0 <= depth ->
  exists v stats',
    minimax fuel b depth maximizing ai_player alpha beta stats = Ret (Fin v, stats')
    /\ -1000 - depth <= v <= 1000 + depth
    /\ (is_terminal b = false -> -1000 - depth < v < 1000 + depth)
    /\ (v = 1000 + depth -> get_winner b = Some ai_player).
Proof.
  intros Hwf Hai Hfuel Hd.
  destruct (minimax_in_range fuel b depth maximizing ai_player alpha beta stats
              Hwf Hai Hfuel Hd) as (v & s' & Hv & Hb & Hnt).
  exists v, s'. split; [assumption|]. split; [assumption|]. split; [assumption|].
  intros Hmax. destruct (is_terminal b) eqn:Ht; [|specialize (Hnt eq_refl); lia].
  destruct fuel as [|fuel]; [lia|]. simpl in Hv. rewrite Ht in Hv.
  rewrite terminal_value_cases in Hv.
  destruct (get_winner b) as [w|]; [|injection Hv as Hv _; lia].
  destruct (Z.eqb_spec w ai_player) as [Heq|Hne]; [now rewrite Heq|].
  injection Hv as Hv _. lia.
Qed.

Lemma minimax_value_bounded_witness :
  exists v stats',
    minimax 43 create_board 4 true PLAYER_2 NegInf PosInf 0 = Ret (Fin v, stats')
    /\ -1000 - 4 <= v <= 1000 + 4
    /\ (is_terminal create_board = false -> -1000 - 4 < v < 1000 + 4)
    /\ (v = 1000 + 4 -> get_winner create_board = Some PLAYER_2).
Proof.
  refine (minimax_value_bounded 43 create_board 4 true PLAYER_2 NegInf PosInf 0
            wf_create_board (or_intror eq_refl) _ _).
  - vm_compute. lia.
  - lia.
Defined.

Lemma pick_In score cols :
  forall best_score best_col,
    pick score cols best_score best_col = best_col
    \/ In (pick score cols best_score best_col) cols.
Proof.
  induction cols as [|col rest IH]; intros best_score best_col; simpl; [auto|].
  destruct (vlt best_score (Fin (score col))).
  - destruct (IH (Fin (score col)) col) as [-> | H]; auto.
  - destruct (IH best_score best_col) as [-> | H]; auto.
Qed.

Lemma pick_is_max score c rest x :
  In x (c :: rest) -> score x <= score (pick score (c :: rest) NegInf c).
Proof.
  intros Hx. simpl.
  destruct (pick_first_max score rest [] c []) as (before & after & Heq & Hb & Ha);
    [intros y []..|].
  simpl in Heq. rewrite Heq in Hx.
  apply in_app_iff in Hx as [Hx|[<-|Hx]]; [specialize (Hb x Hx)|..|specialize (Ha x Hx)]; lia.
Qed.

Lemma root_loop_nodes search b ai_player cols :
  (forall col, In col cols -> exists child,
      make_move b col ai_player = Ret child
      /\ forall s v s', search child s = Ret (v, s') -> (s < s')%nat) ->
  forall best_score best_col s c n,
    root_loop search b ai_player cols best_score best_col s = Ret (c, n) ->
    (s + length cols <= n)%nat.
Proof.
  induction cols as [|col rest IH]; intros Hrec best_score best_col s c n; simpl.
  - intros [= _ <-]. lia.
  - destruct (Hrec col (or_introl eq_refl)) as (child & Hmv & Hs).
    rewrite Hmv. simpl.
    destruct (search child s) as [[v s1]| |] eqn:E; simpl; try discriminate.
    specialize (Hs _ _ _ E).
    destruct (vlt best_score v); intros H;
      apply IH in H; try lia; intros c' Hc'; apply Hrec; now right.
Qed.

(** What [get_best_move] returns on a board with a legal move. *)
Lemma get_best_move_returns fuel b ai_player max_depth :
  wf_board b -> valid_player ai_player -> (count_empty b <= fuel)%nat ->
  get_legal_moves b <> [] ->
  exists best stats child,
    get_best_move fuel b ai_player max_depth = Ret (best, stats)
    /\ In best (get_legal_moves b)
    /\ make_move b best ai_player = Ret child
    /\ wf_board child
    /\ S (count_empty child) = count_empty b
    /\ depth_used stats = max_depth
    /\ (length (get_legal_moves b) <= nodes_expanded stats)%nat
    /\ (forall col, In col (get_legal_moves b) ->
          root_score fuel b ai_player max_depth col
          <= root_score fuel b ai_player max_depth best).
Proof.
  intros Hwf Hai Hfuel Hne.
  pose proof (root_children fuel b ai_player max_depth Hwf Hai Hfuel) as Hch.
  unfold get_best_move. cbv zeta.
  pose proof (order_moves_perm (get_legal_moves b)) as Hperm.
  destruct (_order_moves (get_legal_moves b)) as [|c rest] eqn:Hm.
  { now apply order_moves_nil in Hm. }
  destruct (root_loop_agree _ _ b ai_player _ (c :: rest) Hch NegInf c 0%nat 0%nat)
    as (n & nF & Hn & _ & _).
  cbn -[root_loop pick]. rewrite Hn. cbn -[pick].
  set (best := pick (root_score fuel b ai_player max_depth) (c :: rest) NegInf c).
  assert (Hbest : In best (get_legal_moves b)).
  { apply (Permutation_in _ Hperm).
    destruct (pick_In (root_score fuel b ai_player max_depth) (c :: rest) NegInf c)
      as [H|H]; fold best in H; [rewrite H; now left|assumption]. }
  destruct (make_move_legal b best ai_player Hwf Hbest) as (child & Hmv & Hwfc & Hcnt).
  exists best, {| nodes_expanded := n; depth_used := max_depth |}, child.
  split; [reflexivity|]. split; [assumption|]. split; [assumption|].
  split; [assumption|]. split; [apply Hcnt; now apply valid_not_empty|].
  split; [reflexivity|]. split.
  - simpl. rewrite <- (Permutation_length Hperm).
    apply (root_loop_nodes _ b ai_player (c :: rest)) in Hn; [simpl in *; lia|].
    intros col Hcol. destruct (Hch col Hcol) as (ch & Hmv' & _).
    exists ch. split; [assumption|]. intros s v s' Hs.
    exact (proj2 (minimax_shift _ _ _ _ _ _ _ _ _ _ 0%nat Hs)).
  - intros col Hcol. apply pick_is_max.
    apply (Permutation_in _ (Permutation_sym Hperm)). assumption.
Qed.

(** X14: on a board with a legal move [get_best_move] returns a legal
    column, so that the [make_move] that follows it in the game loop does
    not raise; the statistics record the depth that was asked for and at
    least one expanded node per legal move; and no legal move has a higher
    search value than the returned one. *)
Theorem get_best_move_legal (fuel : nat) (b : board) (ai_player max_depth : Z) :
  wf_board b -> valid_player ai_player -> (count_empty b <= fuel)%nat ->
  get_legal_moves b <> [] ->
  exists best stats child,
    get_best_move fuel b ai_player max_depth = Ret (best, stats)
    /\ In best (get_legal_moves b)
    /\ make_move b best ai_player = Ret child
    /\ depth_used stats = max_depth
    /\ (length (get_legal_moves b) <= nodes_expanded stats)%nat
    /\ (forall col, In col (get_legal_moves b) ->
          root_score fuel b ai_player max_depth col
          <= root_score fuel b ai_player max_depth best).
Proof.
  intros Hwf Hai Hfuel Hne.
  destruct (get_best_move_returns fuel b ai_player max_depth Hwf Hai Hfuel Hne)
    as (best & stats & child & H1 & H2 & H3 & _ & _ & H4 & H5 & H6).
  exists best, stats, child. auto 10.
Qed.

Lemma get_best_move_legal_witness :
  exists best stats child,
    get_best_move 42 create_board PLAYER_2 3 = Ret (best, stats)
    /\ In best (get_legal_moves create_board)
    /\ make_move create_board best PLAYER_2 = Ret child
    /\ depth_used stats = 3
    /\ (length (get_legal_moves create_board) <= nodes_expanded stats)%nat
    /\ (forall col, In col (get_legal_moves create_board) ->
          root_score 42 create_board PLAYER_2 3 col
          <= root_score 42 create_board PLAYER_2 3 best).
Proof.
  refine (get_best_move_legal 42 create_board PLAYER_2 3
            wf_create_board (or_intror eq_refl) _ _).
  - vm_compute. lia.
  - vm_compute. discriminate.
Defined.

Lemma root_loop_exact search b ai_player cols :
  (forall col, In col cols -> exists child,
      make_move b col ai_player = Ret child
      /\ forall s, exists v, search child s = Ret (v, (s + 1)%nat)) ->
  forall best_score best_col s, exists c,
    root_loop search b ai_player cols best_score best_col s
    = Ret (c, (s + length cols)%nat)
    /\ (c = best_col \/ In c cols).
Proof.
  induction cols as [|col rest IH]; intros Hrec best_score best_col s; simpl.
  - exists best_col. split; [f_equal; f_equal; lia|auto].
  - destruct (Hrec col (or_introl eq_refl)) as (child & Hmv & Hs).
    destruct (Hs s) as [v Hv]. rewrite Hmv. simpl. rewrite Hv. simpl.
    replace (s + S (length rest))%nat with (s + 1 + length rest)%nat by lia.
    destruct (vlt best_score v).
    + destruct (IH (fun c Hc => Hrec c (or_intror Hc)) v col (s + 1)%nat)
        as (c & Hc & Hin). exists c. split; [assumption|].
      destruct Hin as [-> | Hin]; simpl; auto.
    + destruct (IH (fun c Hc => Hrec c (or_intror Hc)) best_score best_col (s + 1)%nat)
        as (c & Hc & Hin). exists c. split; [assumption|].
      destruct Hin as [-> | Hin]; simpl; auto.
Qed.

(** X15: with [max_depth = 1] the search looks one move ahead and no
    further: [get_best_move] expands exactly one node per legal move and
    returns a legal column. *)
Theorem get_best_move_depth_one (fuel : nat) (b : board) (ai_player : Z) :
  wf_board b -> get_legal_moves b <> [] ->
  exists best,
    get_best_move (S fuel) b ai_player 1
    = Ret (best, {| nodes_expanded := length (get_legal_moves b); depth_used := 1 |})
    /\ In best (get_legal_moves b).
Proof.
  intros Hwf Hne. unfold get_best_move. cbv zeta.
  pose proof (order_moves_perm (get_legal_moves b)) as Hperm.
  destruct (_order_moves (get_legal_moves b)) as [|c rest] eqn:Hm.
  { now apply order_moves_nil in Hm. }
  destruct (root_loop_exact
              (fun child stats => minimax (S fuel) child (1 - 1) false ai_player
                                    NegInf PosInf stats)
              b ai_player (c :: rest)) with (best_score := NegInf) (best_col := c)
              (s := 0%nat) as (best & Hbest & Hin).
  { intros col Hcol. apply (Permutation_in _ Hperm) in Hcol.
    destruct (make_move_legal b col ai_player Hwf Hcol) as (child & Hmv & _).
    exists child. split; [assumption|]. intros s. simpl.
    destruct (is_terminal child); eauto. }
  cbn -[root_loop minimax Z.sub]. rewrite Hbest. cbn.
  exists best. split.
  - now rewrite <- (Permutation_length Hperm).
  - apply (Permutation_in _ Hperm). destruct Hin as [-> | Hin]; [now left|assumption].
Qed.

Lemma get_best_move_depth_one_witness :
  exists best,
    get_best_move 1 two_columns PLAYER_1 1
    = Ret (best, {| nodes_expanded := length (get_legal_moves two_columns);
                    depth_used := 1 |})
    /\ In best (get_legal_moves two_columns).
Proof.
  refine (get_best_move_depth_one 0 two_columns PLAYER_1 wf_two_columns _).
  vm_compute. discriminate.
Defined.

Lemma root_score_win fuel b ai_player max_depth col child :
  wf_board b -> valid_player ai_player -> (count_empty b <= fuel)%nat ->
  1 <= max_depth ->
  In col (get_legal_moves b) -> make_move b col ai_player = Ret child ->
  (get_winner child = Some ai_player ->
   root_score fuel b ai_player max_depth col = 1000 + (max_depth - 1))
  /\ (get_winner child <> Some ai_player ->
      root_score fuel b ai_player max_depth col < 1000 + (max_depth - 1)).
Proof.
  intros Hwf Hai Hfuel Hd Hcol Hmv.
  destruct (make_move_legal b col ai_player Hwf Hcol) as (child' & Hmv' & Hwfc & Hcnt).
  rewrite Hmv in Hmv'. injection Hmv' as <-.
  specialize (Hcnt (valid_not_empty _ Hai)).
  destruct (minimax_in_range fuel child (max_depth - 1) false ai_player NegInf PosInf 0
              Hwfc Hai ltac:(lia) ltac:(lia)) as (v & s' & Hv & Hb & Hnt).
  unfold root_score. rewrite Hmv, Hv.
  destruct (is_terminal child) eqn:Ht.
  - destruct fuel as [|fuel]; [lia|]. simpl in Hv. rewrite Ht in Hv.
    rewrite terminal_value_cases in Hv.
    destruct (get_winner child) as [w|].
    + destruct (Z.eqb_spec w ai_player) as [Heq|Hne]; injection Hv as Hv _.
      * split; [lia|]. intros H. exfalso. apply H. now rewrite Heq.
      * split; [|lia]. intros [= Hw]. contradiction.
    + injection Hv as Hv _. split; [discriminate|lia].
  - rewrite (not_terminal_no_winner child Ht). specialize (Hnt eq_refl).
    split; [discriminate|lia].
Qed.

(** X16: the search never passes up a win: when some legal move completes
    a line for the AI player, [get_best_move] with a depth of at least 1
    returns a move that does. *)
Theorem takes_immediate_win (fuel : nat) (b : board) (ai_player max_depth col : Z)
    (winning : board) :
  wf_board b -> valid_player ai_player -> (count_empty b <= fuel)%nat ->
  1 <= max_depth ->
  In col (get_legal_moves b) ->
  make_move b col ai_player = Ret winning ->
  get_winner winning = Some ai_player ->
  exists best stats child,
    get_best_move fuel b ai_player max_depth = Ret (best, stats)
    /\ In best (get_legal_moves b)
    /\ make_move b best ai_player = Ret child
    /\ get_winner child = Some ai_player.
Proof.
  intros Hwf Hai Hfuel Hd Hcol Hmv Hwin.
  assert (Hne : get_legal_moves b <> []) by (intros H; rewrite H in Hcol; destruct Hcol).
  destruct (get_best_move_returns fuel b ai_player max_depth Hwf Hai Hfuel Hne)
    as (best & stats & child & Hbm & Hbest & Hmvb & _ & _ & _ & _ & Hmax).
  exists best, stats, child. split; [assumption|]. split; [assumption|].
  split; [assumption|].
  destruct (root_score_win fuel b ai_player max_depth col winning
              Hwf Hai Hfuel Hd Hcol Hmv) as [Hw _].
  destruct (root_score_win fuel b ai_player max_depth best child
              Hwf Hai Hfuel Hd Hbest Hmvb) as [_ Hlt].
  specialize (Hw Hwin). specialize (Hmax col Hcol).
  destruct (get_winner child) as [w|] eqn:Hq.
  - destruct (Z.eq_dec w ai_player) as [->|Hn]; [reflexivity|].
    assert (Some w <> Some ai_player) by congruence. specialize (Hlt H). lia.
  - specialize (Hlt ltac:(discriminate)). lia.
Qed.

Lemma takes_immediate_win_witness :
  exists best stats child,
    get_best_move 42 three_in_row PLAYER_2 2 = Ret (best, stats)
    /\ In best (get_legal_moves three_in_row)
    /\ make_move three_in_row best PLAYER_2 = Ret child
    /\ get_winner child = Some PLAYER_2.
Proof.
  refine (takes_immediate_win 42 three_in_row PLAYER_2 2 3
            (set_cell three_in_row 5 3 PLAYER_2) _ (or_intror eq_refl) _ _ _ _ _).
  - split; [reflexivity|]. repeat constructor.
  - vm_compute. lia.
  - lia.
  - vm_compute. tauto.
  - reflexivity.
  - reflexivity.
Defined.

(** * Properties of the interactive game *)

Lemma human_move_loop_spec (strip : string -> string) (int : string -> option Z)
    (legal : list Z) :
  (forall c, In c legal -> 0 <= c < COLS) ->
  forall stdin,
    match human_move_loop strip int legal stdin with
    | (Returned col rest, out) =>
        In col legal
        /\ exists skipped line,
             stdin = skipped ++ line :: rest
             /\ int (strip line) = Some (col + 1)
             /\ length out = length skipped
             /\ forall l n, In l skipped -> int (strip l) = Some n -> ~ In (n - 1) legal
    | (Aborted e, out) =>
        e = SystemExit
        /\ length out = length stdin
        /\ forall l n, In l stdin -> int (strip l) = Some n -> ~ In (n - 1) legal
    | (NoFuel, _) => False
    end.
Proof.
  intros Hlegal. induction stdin as [|line stdin IH]; simpl.
  - split; [reflexivity|]. split; [reflexivity|]. intros l n [].
  - assert (Hstep : forall (reason : rejection),
      (forall n, int (strip line) = Some n -> ~ In (n - 1) legal) ->
      match (let '(r, out) := human_move_loop strip int legal stdin in (r, reason :: out)) with
      | (Returned col rest, out) =>
          In col legal
          /\ exists skipped line0,
               line :: stdin = skipped ++ line0 :: rest
               /\ int (strip line0) = Some (col + 1)
               /\ length out = length skipped
               /\ forall l n, In l skipped -> int (strip l) = Some n -> ~ In (n - 1) legal
      | (Aborted e, out) =>
          e = SystemExit
          /\ length out = length (line :: stdin)
          /\ forall l n, In l (line :: stdin) -> int (strip l) = Some n -> ~ In (n - 1) legal
      | (NoFuel, _) => False
      end).
    { intros reason Hrej.
      destruct (human_move_loop strip int legal stdin) as [[col rest|e|] out];
        [|destruct IH as (He & Hlen & Hall)|assumption].
      - destruct IH as (Hin & skipped & line0 & Heq & Hint & Hlen & Hall).
        split; [assumption|]. exists (line :: skipped), line0.
        split; [now rewrite Heq|]. split; [assumption|].
        split; [simpl; now rewrite Hlen|].
        intros l n [<-|Hl]; [apply Hrej|now apply Hall].
      - split; [assumption|]. split; [simpl; now rewrite Hlen|].
        intros l n [<-|Hl]; [apply Hrej|now apply Hall]. }
    destruct (int (strip line)) as [n|] eqn:Hint.
    + destruct ((n - 1 <? 0) || (n - 1 >=? COLS)) eqn:Hb.
      { apply Hstep. intros n' [= <-] Hin. apply Hlegal in Hin.
        revert Hb. zbool; intros; try discriminate; lia. }
      destruct (existsb (fun c => c =? n - 1) legal) eqn:He; simpl.
      * apply existsb_exists in He as (c & Hc & Heq). apply Z.eqb_eq in Heq. subst c.
        split; [assumption|]. exists [], line. simpl.
        split; [reflexivity|]. split; [rewrite Hint; f_equal; lia|].
        split; [reflexivity|]. intros l n' [].
      * apply Hstep. intros n' [= <-] Hin.
        assert (existsb (fun c => c =? n - 1) legal = true); [|congruence].
        apply existsb_exists. exists (n - 1). split; [assumption|apply Z.eqb_refl].
    + apply Hstep. intros n' [=].
Qed.

(** X17: [get_human_move] validates the input: the column it returns is a
    legal move of the board, so the [make_move] that follows cannot raise;
    it comes from the first line that converts to the number of a legal
    column, and every line before it was answered with one message; when
    no line is acceptable the function leaves through [sys.exit]. *)
Theorem get_human_move_valid (strip : string -> string) (int : string -> option Z)
    (b : board) (stdin : list string) :
  match get_human_move strip int b stdin with
  | (Returned col rest, out) =>
      In col (get_legal_moves b)
      /\ (forall player, exists child, make_move b col player = Ret child)
      /\ exists skipped line,
           stdin = skipped ++ line :: rest
           /\ int (strip line) = Some (col + 1)
           /\ length out = length skipped
           /\ forall l n, In l skipped -> int (strip l) = Some n ->
                ~ In (n - 1) (get_legal_moves b)
  | (Aborted e, out) =>
      e = SystemExit
      /\ length out = length stdin
      /\ forall l n, In l stdin -> int (strip l) = Some n ->
           ~ In (n - 1) (get_legal_moves b)
  | (NoFuel, _) => False
  end.
Proof.
  unfold get_human_move. cbv zeta.
  pose proof (human_move_loop_spec strip int (get_legal_moves b)
                (fun c Hc => proj1 (proj1 (legal_move_iff b c) Hc)) stdin) as H.
  destruct (human_move_loop strip int (get_legal_moves b) stdin) as [[col rest|e|] out];
    [|assumption..].
  destruct H as [Hin Hrest]. split; [assumption|]. split; [|assumption].
  intros player. now apply make_move_returns_iff.
Qed.

Lemma choose_player_order_spec (strip lower : string -> string) (stdin : list string) :
  match choose_player_order strip lower stdin with
  | Returned (human_player, ai_player) rest =>
      (human_player = PLAYER_1 /\ ai_player = PLAYER_2
       \/ human_player = PLAYER_2 /\ ai_player = PLAYER_1)
      /\ (length rest < length stdin)%nat
  | Aborted e => e = EOFError
  | NoFuel => False
  end.
Proof.
  induction stdin as [|line stdin IH]; simpl; [reflexivity|].
  destruct (_ || _); [split; [auto|lia]|].
  destruct (_ || _); [split; [auto|lia]|].
  destruct (choose_player_order strip lower stdin) as [[h a] rest|e|]; try assumption.
  destruct IH as [IH Hlen]. split; [assumption|lia].
Qed.

Lemma choose_difficulty_spec (strip : string -> string) (stdin : list string) :
  match choose_difficulty strip stdin with
  | Returned depth rest =>
      (depth = 3 \/ depth = 5 \/ depth = 7) /\ (length rest < length stdin)%nat
  | Aborted e => e = EOFError
  | NoFuel => False
  end.
Proof.
  induction stdin as [|line stdin IH]; simpl; [reflexivity|].
  destruct (String.eqb _ _); [split; [auto|lia]|].
  destruct (String.eqb _ _); [split; [auto|lia]|].
  destruct (String.eqb _ _); [split; [auto|lia]|].
  destruct (choose_difficulty strip stdin) as [d rest|e|]; try assumption.
  destruct IH as [IH Hlen]. split; [assumption|lia].
Qed.


Lemma count_cells_app (b1 b2 : board) v :
  count_cells (b1 ++ b2) v = (count_cells b1 v + count_cells b2 v)%nat.
Proof. unfold count_cells. now rewrite concat_app, List.filter_app, length_app. Qed.

Lemma count_cells_cons (r : list Z) (b : board) v :
  count_cells (r :: b) v
  = (length (List.filter (fun x => (x =? v)%Z) r) + count_cells b v)%nat.
Proof. unfold count_cells. simpl. now rewrite List.filter_app, length_app. Qed.

(** Writing a piece into an empty cell adds one to the count of that
    piece and leaves the other piece counts alone. *)
Lemma count_cells_set_cell b row col v u :
  wf_board b -> 0 <= row < ROWS -> 0 <= col < COLS ->
  cell b row col = EMPTY -> v <> EMPTY -> u <> EMPTY ->
  count_cells (set_cell b row col v) u
  = (count_cells b u + (if (u =? v)%Z then 1 else 0))%nat.
Proof.
  intros Hwf Hrow Hcol Hcell Hv Hu.
  destruct (wf_lookup b row Hwf Hrow) as [x Hx].
  assert (Hlen : length x = Z.to_nat COLS) by (eapply wf_row; eauto).
  assert (Hc : (Z.to_nat col < length x)%nat) by (rewrite Hlen; unfold COLS in *; lia).
  destruct (lookup_lt_is_Some_2 _ _ Hc) as [y Hy].
  unfold cell in Hcell. rewrite Hx, Hy in Hcell. simpl in Hcell. subst y.
  unfold set_cell. rewrite Hx.
  rewrite insert_take_drop by (eapply lookup_lt_Some; eauto).
  rewrite <- (take_drop_middle b _ _ Hx) at 3.
  rewrite !count_cells_app, !count_cells_cons.
  rewrite (insert_take_drop x) by assumption.
  rewrite <- (take_drop_middle x _ _ Hy) at 3.
  rewrite !List.filter_app, !length_app. cbn [List.filter].
  rewrite (Z.eqb_sym u v).
  destruct (Z.eqb_spec v u), (Z.eqb_spec EMPTY u); simpl; try lia; congruence.
Qed.

Lemma set_cell_gravity b row col player :
  wf_board b -> gravity b -> 0 <= col < COLS -> lowest_empty b col row ->
  player <> EMPTY -> gravity (set_cell b row col player).
Proof.
  intros Hwf Hg Hcol (Hrow & He & Hlow) Hp r r' c Hr Hr' Hc.
  rewrite !cell_set_cell by (try assumption; lia).
  destruct (Z.eqb_spec r' row) as [->|Hn'], (Z.eqb_spec c col) as [->|Hnc]; simpl.
  - intros _. assumption.
  - rewrite andb_false_r. apply Hg; assumption.
  - destruct (Z.eqb_spec r row) as [->|Hn]; simpl.
    + intros _. apply Hlow. lia.
    + apply Hg; assumption.
  - rewrite andb_false_r. apply Hg; assumption.
Qed.

(** One move of the game: what a legal move by a player does to the
    invariants of the game loop. *)
Lemma move_step b col player :
  wf_board b -> gravity b -> In col (get_legal_moves b) -> valid_player player ->
  exists child,
    make_move b col player = Ret child
    /\ wf_board child /\ gravity child
    /\ S (count_empty child) = count_empty b
    /\ count_cells child player = S (count_cells b player)
    /\ count_cells child (get_opponent player) = count_cells b (get_opponent player).
Proof.
  intros Hwf Hg Hcol Hp. pose proof Hcol as [Hc Ht]%legal_move_iff.
  pose proof (valid_not_empty _ Hp) as Hne.
  destruct (make_move_ok b col player Hwf Hc Ht) as (row & Hlow & Hmv).
  pose proof Hlow as (Hrow & He & _).
  exists (set_cell b row col player). split; [assumption|].
  split; [now apply wf_set_cell|]. split; [now apply set_cell_gravity|].
  split; [now apply count_empty_set_cell|]. split.
  - rewrite count_cells_set_cell by assumption. rewrite Z.eqb_refl. lia.
  - rewrite count_cells_set_cell;
      try assumption; [|apply valid_not_empty, opponent_valid].
    destruct (Z.eqb_spec (get_opponent player) player) as [Heq|_]; [|lia].
    exfalso. destruct Hp as [-> | ->]; discriminate.
Qed.

Ltac players :=
  try change (get_opponent PLAYER_1) with PLAYER_2 in *;
  try change (get_opponent PLAYER_2) with PLAYER_1 in *;
  try change (PLAYER_1 =? PLAYER_1) with true in *;
  try change (PLAYER_2 =? PLAYER_1) with false in *;
  cbv iota in *.

Lemma game_loop_safe (strip : string -> string) (int : string -> option Z)
    (fuel : nat) (human_player ai_player depth : Z) :
  (human_player = PLAYER_1 /\ ai_player = PLAYER_2
   \/ human_player = PLAYER_2 /\ ai_player = PLAYER_1) ->
  forall turns b current stdin tn mc,
    wf_board b -> gravity b -> is_terminal b = false ->
    (count_empty b <= turns)%nat -> (count_empty b <= fuel)%nat ->
    valid_player current ->
    count_cells b PLAYER_1
    = (count_cells b PLAYER_2 + (if (current =? PLAYER_1)%Z then 0 else 1))%nat ->
    (mc + count_empty b <= 42)%nat -> (mc <= tn)%nat ->
    match game_loop strip int turns fuel human_player ai_player depth b current
            stdin tn mc with
    | Returned s rest =>
        wf_board (final_board s) /\ gravity (final_board s)
        /\ is_terminal (final_board s) = true
        /\ winner s = get_winner (final_board s)
        /\ (count_cells (final_board s) PLAYER_1 = count_cells (final_board s) PLAYER_2
            \/ count_cells (final_board s) PLAYER_1
               = S (count_cells (final_board s) PLAYER_2))
        /\ (move_count s + count_empty (final_board s) <= 42)%nat
        /\ (move_count s <= total_nodes s)%nat
    | Aborted e => e = SystemExit
    | NoFuel => False
    end.
Proof.
  intros Horder.
  induction turns as [|turns IH];
    intros b current stdin tn mc Hwf Hg Ht Hturns Hfuel Hcur Hpieces Hmc Htn.
  { assert (H0 : count_empty b = 0%nat) by lia.
    apply (full_board_no_moves b Hwf) in H0.
    unfold is_terminal in Ht. rewrite H0 in Ht. simpl in Ht.
    rewrite orb_true_r in Ht. discriminate. }
  assert (Hafter : forall child stdin' tn' mc',
    wf_board child -> gravity child -> S (count_empty child) = count_empty b ->
    count_cells child current = S (count_cells b current) ->
    count_cells child (get_opponent current) = count_cells b (get_opponent current) ->
    (mc' + count_empty child <= 42)%nat -> (mc' <= tn')%nat ->
    match
      (if is_terminal child
       then Returned {| final_board := child; winner := get_winner child;
                        total_nodes := tn'; move_count := mc' |} stdin'
       else game_loop strip int turns fuel human_player ai_player depth child
              (get_opponent current) stdin' tn' mc')
    with
    | Returned s rest =>
        wf_board (final_board s) /\ gravity (final_board s)
        /\ is_terminal (final_board s) = true
        /\ winner s = get_winner (final_board s)
        /\ (count_cells (final_board s) PLAYER_1 = count_cells (final_board s) PLAYER_2
            \/ count_cells (final_board s) PLAYER_1
               = S (count_cells (final_board s) PLAYER_2))
        /\ (move_count s + count_empty (final_board s) <= 42)%nat
        /\ (move_count s <= total_nodes s)%nat
    | Aborted e => e = SystemExit
    | NoFuel => False
    end).
  { intros child stdin' tn' mc' Hwfc Hgc Hcnt Hp1 Hp2 Hmc' Htn'.
    assert (Hpieces' : count_cells child PLAYER_1
              = (count_cells child PLAYER_2
                 + (if (get_opponent current =? PLAYER_1)%Z then 0 else 1))%nat).
    { destruct Hcur as [-> | ->]; players; lia. }
    destruct (is_terminal child) eqn:Htc.
    - cbn [final_board winner total_nodes move_count].
      split; [assumption|]. split; [assumption|]. split; [assumption|].
      split; [reflexivity|]. split; [|split; assumption].
      destruct Hcur as [-> | ->]; players; lia.
    - apply IH; try assumption; try lia. apply opponent_valid. }
  cbn [game_loop]. cbv zeta.
  destruct (Z.eqb_spec current human_player) as [Heq|Hneq].
  - unfold get_human_move. cbv zeta.
    pose proof (human_move_loop_spec strip int (get_legal_moves b)
                  (fun c Hc => proj1 (proj1 (legal_move_iff b c) Hc)) stdin) as Hh.
    destruct (human_move_loop strip int (get_legal_moves b) stdin)
      as [[col rest|e|] out]; simpl; [|exact (proj1 Hh)|assumption].
    destruct Hh as [Hin _]. subst human_player.
    destruct (move_step b col current Hwf Hg Hin Hcur)
      as (child & Hmv & Hwfc & Hgc & Hcnt & Hp1 & Hp2).
    rewrite Hmv. simpl. apply Hafter; try assumption. lia.
  - assert (Hai : current = ai_player).
    { destruct Horder as [[-> ->]|[-> ->]], Hcur as [-> | ->]; try reflexivity;
        contradiction. }
    subst ai_player.
    destruct (get_best_move_returns fuel b current depth Hwf Hcur Hfuel
                (not_terminal_legal b Ht))
      as (best & stats & child0 & Hbm & Hbest & _ & _ & _ & _ & Hnodes & _).
    rewrite Hbm. simpl.
    destruct (move_step b best current Hwf Hg Hbest Hcur)
      as (child & Hmv & Hwfc & Hgc & Hcnt & Hp1 & Hp2).
    rewrite Hmv. simpl. apply Hafter; try assumption; try lia.
    assert (length (get_legal_moves b) <> 0%nat).
    { pose proof (not_terminal_legal b Ht). destruct (get_legal_moves b);
        [contradiction|discriminate]. }
    lia.
Qed.

(** X19: a game never fails in the board model or in the search: for any
    input, [play_game] either returns, or stops with [EOFError] (input
    ended at a set-up prompt) or [SystemExit] (input ended at a move
    prompt), never with [ValueError] from [make_move] or [IndexError] from
    [get_best_move].  At most 42 turns are played, and when the game
    returns the final board is terminal and satisfies the gravity
    invariant, the reported winner is its winner, player 1 has as many
    pieces as player 2 or one more, and the AI has moved at most once per
    piece and expanded at least one node per move. *)
Theorem play_game_safe (strip lower : string -> string) (int : string -> option Z)
    (turns fuel : nat) (stdin : list string) :
  (42 <= turns)%nat -> (42 <= fuel)%nat ->
  match play_game strip lower int turns fuel stdin with
  | Returned s rest =>
      wf_board (final_board s) /\ gravity (final_board s)
      /\ is_terminal (final_board s) = true
      /\ winner s = get_winner (final_board s)
      /\ (count_cells (final_board s) PLAYER_1 = count_cells (final_board s) PLAYER_2
          \/ count_cells (final_board s) PLAYER_1
             = S (count_cells (final_board s) PLAYER_2))
      /\ (move_count s + count_empty (final_board s) <= 42)%nat
      /\ (move_count s <= total_nodes s)%nat
  | Aborted e => e = EOFError \/ e = SystemExit
  | NoFuel => False
  end.
Proof.
  intros Hturns Hfuel. unfold play_game.
  pose proof (choose_player_order_spec strip lower stdin) as Ho.
  destruct (choose_player_order strip lower stdin) as [[h a] stdin1|e|];
    [|now left|assumption].
  destruct Ho as [Horder _].
  pose proof (choose_difficulty_spec strip stdin1) as Hd.
  destruct (choose_difficulty strip stdin1) as [depth stdin2|e|];
    [|now left|assumption].
  cbv zeta.
  assert (H42 : count_empty create_board = 42%nat) by reflexivity.
  pose proof (game_loop_safe strip int fuel h a depth Horder turns create_board PLAYER_1
                stdin2 0%nat 0%nat wf_create_board gravity_create_board eq_refl
                ltac:(lia) ltac:(lia) (or_introl eq_refl) eq_refl ltac:(lia) ltac:(lia))
    as H.
  destruct (game_loop strip int turns fuel h a depth create_board PLAYER_1 stdin2 0 0)
    as [s rest|e|]; [assumption|now right|assumption].
Qed.

Lemma play_game_safe_witness :
  match play_game (fun s => s) (fun s => s) (fun _ => None) 42 42 [] with
  | Returned s rest => is_terminal (final_board s) = true
  | Aborted e => e = EOFError \/ e = SystemExit
  | NoFuel => False
  end.
Proof.
  pose proof (play_game_safe (fun s => s) (fun s => s) (fun _ => None) 42 42 []
                (le_n 42) (le_n 42)) as H.
  destruct (play_game (fun s => s) (fun s => s) (fun _ => None) 42 42 []);
    [exact (proj1 (proj2 (proj2 H)))|exact H|exact H].
Defined.
